(** * Rock-Paper-Scissors-Plus referee: state model, tools and agent

    A shallow embedding of [state.py], [tools.py], [agent.py] and the loop
    of [main.py].

    - Python [int] is [Z].  A [str] is the [string] of its UTF-8 bytes;
      [strip] removes the whitespace characters of Python, [lower] and
      [capitalize] are computed on ASCII strings and taken from the Unicode
      database, a parameter ([PyStr.Unicode]), on all others.
    - [Dict[str, int]] and [Dict[str, bool]] are [gmap]s; subscripting a key
      that is absent raises [KeyError], which is [None] in the value layer
      and [Raise KeyError] in the store layer.
    - Dict literals with a fixed set of keys of different value types
      (round results, validation results, history entries) are records.
    - [random.choice] takes the drawn number as an explicit argument.
    - The tools are given twice.  The value layer reads them as functions on
      state values; the agent is built on it.  The store layer ([Store])
      keeps object identity: states, dicts and lists are objects in a store,
      [copy.deepcopy] allocates, assignments write.  The two are proved to
      agree ([update_game_state_exec], [validate_move_exec]). *)

From Stdlib Require Import ZArith Ascii String DecimalString.
From stdpp Require Import base option list gmap strings.

Local Open Scope Z_scope.
Local Open Scope string_scope.
Local Open Scope list_scope.

(** ** Python [str] methods *)

Module PyStr.

(** A Python [str] is modelled by its UTF-8 encoding: a [string] is the
    sequence of bytes, and a character is one to four of them. *)

Definition code (c : ascii) : N := Ascii.N_of_ascii c.

Definition utf8 (bytes : list N) : list ascii := map Ascii.ascii_of_N bytes.

(** The characters [str.isspace] holds of, which are the ones [str.strip]
    removes: U+0009 to U+000D, U+001C to U+0020, U+0085, U+00A0, U+1680,
    U+2000 to U+200A, U+2028, U+2029, U+202F, U+205F and U+3000. *)
Definition whitespace : list (list ascii) :=
  map utf8
    [ [9]; [10]; [11]; [12]; [13]; [28]; [29]; [30]; [31]; [32];
      [0xC2; 0x85]; [0xC2; 0xA0];
      [0xE1; 0x9A; 0x80];
      [0xE2; 0x80; 0x80]; [0xE2; 0x80; 0x81]; [0xE2; 0x80; 0x82];
      [0xE2; 0x80; 0x83]; [0xE2; 0x80; 0x84]; [0xE2; 0x80; 0x85];
      [0xE2; 0x80; 0x86]; [0xE2; 0x80; 0x87]; [0xE2; 0x80; 0x88];
      [0xE2; 0x80; 0x89]; [0xE2; 0x80; 0x8A];
      [0xE2; 0x80; 0xA8]; [0xE2; 0x80; 0xA9]; [0xE2; 0x80; 0xAF];
      [0xE2; 0x81; 0x9F];
      [0xE3; 0x80; 0x80] ]%N.

Fixpoint starts_with (w l : list ascii) : bool :=
  match w, l with
  | [], _ => true
  | a :: w', b :: l' => bool_decide (a = b) && starts_with w' l'
  | _ :: _, [] => false
  end.

Definition ends_with (w l : list ascii) : bool := starts_with (rev w) (rev l).

(** The whitespace character a byte sequence starts, respectively ends,
    with. *)
Definition space_at_head (l : list ascii) : option (list ascii) :=
  List.find (λ w, starts_with w l) whitespace.

Definition space_at_tail (l : list ascii) : option (list ascii) :=
  List.find (λ w, ends_with w l) whitespace.

(** Whitespace is dropped character by character; [fuel] is the number of
    bytes, which is never used up. *)
Fixpoint lstrip_bytes (fuel : nat) (l : list ascii) : list ascii :=
  match fuel with
  | O => l
  | S k =>
      match space_at_head l with
      | Some w => lstrip_bytes k (drop (length w) l)
      | None => l
      end
  end.

Fixpoint rstrip_bytes (fuel : nat) (l : list ascii) : list ascii :=
  match fuel with
  | O => l
  | S k =>
      match space_at_tail l with
      | Some w => rstrip_bytes k (take (length l - length w) l)
      | None => l
      end
  end.

Definition strip_bytes (l : list ascii) : list ascii :=
  let l := lstrip_bytes (length l) l in
  rstrip_bytes (length l) l.

(** [s.strip()] *)
Definition strip (s : string) : string :=
  string_of_list_ascii (strip_bytes (list_ascii_of_string s)).

(** Case mapping.  On a string of ASCII characters [str.lower] maps A to Z
    onto a to z and [str.capitalize] makes the first character upper case
    and the others lower case.  On any other string they follow the
    Unicode character database of the Python at hand, which is taken as
    given. *)
Class Unicode := {
  unicode_lower : string → string;
  unicode_capitalize : string → string
}.

Fixpoint is_ascii (s : string) : bool :=
  match s with
  | EmptyString => true
  | String c r => (code c <? 128)%N && is_ascii r
  end.

Definition lower_char (c : ascii) : ascii :=
  let n := code c in
  if ((65 <=? n) && (n <=? 90))%N then Ascii.ascii_of_N (n + 32) else c.

Definition upper_char (c : ascii) : ascii :=
  let n := code c in
  if ((97 <=? n) && (n <=? 122))%N then Ascii.ascii_of_N (n - 32) else c.

Fixpoint ascii_lower (s : string) : string :=
  match s with
  | EmptyString => EmptyString
  | String c r => String (lower_char c) (ascii_lower r)
  end.

Definition ascii_capitalize (s : string) : string :=
  match s with
  | EmptyString => EmptyString
  | String c r => String (upper_char c) (ascii_lower r)
  end.

(** [s.lower()] *)
Definition lower `{!Unicode} (s : string) : string :=
  if is_ascii s then ascii_lower s else unicode_lower s.

(** [s.capitalize()] *)
Definition capitalize `{!Unicode} (s : string) : string :=
  if is_ascii s then ascii_capitalize s else unicode_capitalize s.

(** A case mapping to evaluate the program on ASCII input with, where the
    database is not consulted. *)
Definition ascii_only : Unicode :=
  {| unicode_lower := id; unicode_capitalize := id |}.

(** The line feed, and [sep.join(lines)]. *)
Definition nl : string := String (Ascii.ascii_of_N 10) EmptyString.

Fixpoint join (sep : string) (lines : list string) : string :=
  match lines with
  | [] => ""
  | [x] => x
  | x :: rest => x +:+ sep +:+ join sep rest
  end.

(** [s * n] *)
Fixpoint repeat_str (s : string) (n : nat) : string :=
  match n with
  | O => ""
  | S k => s +:+ repeat_str s k
  end.

(** [str(n)] for an [int]. *)
Definition of_int (n : Z) : string := NilZero.string_of_int (Z.to_int n).

End PyStr.

(** [l.remove(x)]: drops the first occurrence, [ValueError] when there is
    none. *)
Fixpoint list_remove (x : string) (l : list string) : option (list string) :=
  match l with
  | [] => None
  | y :: rest => if decide (y = x) then Some rest else (y ::.) <$> list_remove x rest
  end.

(** ** state.py *)

Record RoundRecord := {
  rec_round : Z;
  rec_user_move : string;
  rec_bot_move : string;
  rec_winner : string;
  rec_reason : string
}.

Record GameState := {
  round : Z;
  max_rounds : Z;
  score : gmap string Z;
  bomb_used : gmap string bool;
  history : list RoundRecord;
  game_over : bool
}.

Definition initialize_game_state : GameState :=
  {| round := 1;
     max_rounds := 3;
     score := <["user" := 0]> (<["bot" := 0]> ∅);
     bomb_used := <["user" := false]> (<["bot" := false]> ∅);
     history := [];
     game_over := false |}.

(** Field assignments on a state value. *)
Definition set_round (v : Z) (s : GameState) : GameState :=
  {| round := v; max_rounds := max_rounds s; score := score s;
     bomb_used := bomb_used s; history := history s; game_over := game_over s |}.
Definition set_score (v : gmap string Z) (s : GameState) : GameState :=
  {| round := round s; max_rounds := max_rounds s; score := v;
     bomb_used := bomb_used s; history := history s; game_over := game_over s |}.
Definition set_bomb_used (v : gmap string bool) (s : GameState) : GameState :=
  {| round := round s; max_rounds := max_rounds s; score := score s;
     bomb_used := v; history := history s; game_over := game_over s |}.
Definition set_history (v : list RoundRecord) (s : GameState) : GameState :=
  {| round := round s; max_rounds := max_rounds s; score := score s;
     bomb_used := bomb_used s; history := v; game_over := game_over s |}.
Definition set_game_over (v : bool) (s : GameState) : GameState :=
  {| round := round s; max_rounds := max_rounds s; score := score s;
     bomb_used := bomb_used s; history := history s; game_over := v |}.

(** ** tools.py *)

Record ValidationResult := {
  valid : bool;
  normalized_move : option string;
  error : option string
}.

Record RoundResult := {
  winner : string;
  reason : string
}.

(** The set literal; membership is all the tools use, and the order in which
    [list(VALID_MOVES)] enumerates it is the order written here. *)
Definition VALID_MOVES : list string := ["rock"; "paper"; "scissors"; "bomb"].

Definition validate_move `{!PyStr.Unicode} (move : string) (game_state : GameState)
  : option ValidationResult :=
  let normalized := PyStr.lower (PyStr.strip move) in
  if decide (normalized ∉ VALID_MOVES) then
    Some {| valid := false;
            normalized_move := None;
            error := Some ("Invalid move '" +:+ move +:+
                           "'. Valid moves: rock, paper, scissors, bomb") |}
  else
    used ← (if decide (normalized = "bomb")
            then bomb_used game_state !! "user" else Some false);
    if (used : bool) then
      Some {| valid := false;
              normalized_move := None;
              error := Some "You have already used your bomb! Choose: rock, paper, or scissors" |}
    else
      Some {| valid := true;
              normalized_move := Some normalized;
              error := None |}.

Definition win_conditions : gmap string string :=
  <["rock" := "scissors"]> (<["scissors" := "paper"]> (<["paper" := "rock"]> ∅)).

Definition resolve_round `{!PyStr.Unicode} (user_move bot_move : string) : option RoundResult :=
  if decide (user_move = "bomb" ∧ bot_move = "bomb") then
    Some {| winner := "draw"; reason := "Both players used bomb - it's a draw!" |}
  else if decide (user_move = "bomb") then
    Some {| winner := "user"; reason := "Bomb beats everything!" |}
  else if decide (bot_move = "bomb") then
    Some {| winner := "bot"; reason := "Bot's bomb beats everything!" |}
  else if decide (user_move = bot_move) then
    Some {| winner := "draw"; reason := "Both played " +:+ user_move |}
  else
    beaten ← win_conditions !! user_move;
    if decide (beaten = bot_move) then
      Some {| winner := "user";
              reason := PyStr.capitalize user_move +:+ " beats " +:+ bot_move |}
    else
      Some {| winner := "bot";
              reason := PyStr.capitalize bot_move +:+ " beats " +:+ user_move |}.

Definition update_game_state (game_state : GameState)
    (user_move : option string) (bot_move : string) (round_result : RoundResult)
  : option GameState :=
  (* a deep copy: a value of its own *)
  let new_state := game_state in
  (* scores *)
  new_state ←
    (if decide (winner round_result = "user") then
       n ← score new_state !! "user";
       Some (set_score (<["user" := n + 1]> (score new_state)) new_state)
     else if decide (winner round_result = "bot") then
       n ← score new_state !! "bot";
       Some (set_score (<["bot" := n + 1]> (score new_state)) new_state)
     else Some new_state);
  (* bomb usage *)
  let new_state :=
    if decide (user_move = Some "bomb")
    then set_bomb_used (<["user" := true]> (bomb_used new_state)) new_state
    else new_state in
  let new_state :=
    if decide (bot_move = "bomb")
    then set_bomb_used (<["bot" := true]> (bomb_used new_state)) new_state
    else new_state in
  (* history *)
  let new_state :=
    set_history
      (history new_state ++
         [ {| rec_round := round new_state;
              rec_user_move := default "INVALID" user_move;
              rec_bot_move := bot_move;
              rec_winner := winner round_result;
              rec_reason := reason round_result |} ])
      new_state in
  (* round counter *)
  let new_state := set_round (round new_state + 1) new_state in
  (* game over? *)
  let new_state :=
    if decide (round new_state > max_rounds new_state)
    then set_game_over true new_state
    else new_state in
  Some new_state.

(** ** agent.py *)

Record GameRefereeAgent := {
  game_state : GameState;
  game_started : bool
}.

(** The three tools of [tools.py], as the agent's call log names them. *)
Inductive Tool := ValidateMove | ResolveRound | UpdateGameState.

(** A method of the agent reads and assigns the attributes of [self], may
    raise, and leaves the list of the tools it has invoked, oldest first.
    An exception ([None]) keeps the attributes assigned before it. *)
Record Method (A : Type) := mkMethod {
  run : GameRefereeAgent → list Tool → option A * GameRefereeAgent * list Tool
}.
Arguments mkMethod {A} _.
Arguments run {A} _ _ _.

#[export] Instance Method_ret : MRet Method :=
  λ A a, mkMethod (λ self log, (Some a, self, log)).

#[export] Instance Method_bind : MBind Method :=
  λ A B f m, mkMethod (λ self log,
    match run m self log with
    | (Some a, self', log') => run (f a) self' log'
    | (None, self', log') => (None, self', log')
    end).

Definition get_self : Method GameRefereeAgent :=
  mkMethod (λ self log, (Some self, self, log)).

(** [self.game_state = v] *)
Definition assign_game_state (v : GameState) : Method unit :=
  mkMethod (λ self log,
    (Some tt, {| game_state := v; game_started := game_started self |}, log)).

(** [self.game_started = v] *)
Definition assign_game_started (v : bool) : Method unit :=
  mkMethod (λ self log,
    (Some tt, {| game_state := game_state self; game_started := v |}, log)).

(** An expression that may raise. *)
Definition eval {A} (o : option A) : Method A :=
  mkMethod (λ self log, (o, self, log)).

(** A call of one of the tools: logged, then evaluated. *)
Definition call {A} (t : Tool) (o : option A) : Method A :=
  mkMethod (λ self log, (o, self, log ++ [t])).

(** [GameRefereeAgent()] *)
Definition __init__ : GameRefereeAgent :=
  {| game_state := initialize_game_state; game_started := false |}.

Definition welcome_message : string :=
  PyStr.strip "
🎮 Welcome to Rock-Paper-Scissors-Plus!

📜 Rules (Best of 3):
   • Valid moves: rock, paper, scissors, bomb
   • Bomb can be used once per game and beats all other moves
   • Bomb vs Bomb = draw
   • Invalid input wastes the round (bot wins by default)
   • Game ends automatically after 3 rounds

Let's begin! What's your move for Round 1?
".

Definition start_game : Method string :=
  assign_game_state initialize_game_state;;
  assign_game_started true;;
  mret welcome_message.

(** [rnd] is the number [random.choice] draws; it picks the element at index
    [rnd mod len(available_moves)]. *)
Definition generate_bot_move (rnd : nat) : Method string :=
  self ← get_self;
  let available_moves := VALID_MOVES in
  used ← eval (bomb_used (game_state self) !! "bot");
  available_moves ←
    eval (if (used : bool) then list_remove "bomb" available_moves
          else Some available_moves);
  eval (available_moves !! (rnd mod length available_moves)%nat).

Definition _format_final_result : Method string :=
  self ← get_self;
  user_score ← eval (score (game_state self) !! "user");
  bot_score ← eval (score (game_state self) !! "bot");
  let result_lines :=
    [ PyStr.nl +:+ PyStr.repeat_str "=" 50;
      "🎮 GAME OVER - Final Results";
      PyStr.repeat_str "=" 50;
      "Final Score: You " +:+ PyStr.of_int user_score +:+ " - "
        +:+ PyStr.of_int bot_score +:+ " Bot" ] in
  let result_lines :=
    result_lines ++
      [ if decide (user_score > bot_score) then
          PyStr.nl +:+ "🎉 YOU WIN THE GAME! 🎉"
        else if decide (bot_score > user_score) then
          PyStr.nl +:+ "🤖 BOT WINS THE GAME! 🤖"
        else
          PyStr.nl +:+ "🤝 IT'S A DRAW! 🤝" ] in
  let result_lines := result_lines ++ [ PyStr.nl +:+ "Thanks for playing!" ] in
  mret (PyStr.join PyStr.nl result_lines).

Definition _format_round_response (round_num : Z) (user_move : option string)
    (bot_move : string) (round_result : RoundResult)
    (validation_result : ValidationResult) : Method string :=
  let bomb_mark (m : option string) : string :=
    if decide (m = Some "bomb") then "💣" else "" in
  let lines := [ PyStr.nl +:+ "🎯 Round " +:+ PyStr.of_int round_num +:+ " Results:" ] in
  let lines :=
    if negb (valid validation_result) then
      lines ++ [ "   ⚠️  " +:+ default "None" (error validation_result);
                 "   You: INVALID INPUT" ]
    else
      lines ++ [ "   You: " +:+ default "None" user_move +:+ " "
                   +:+ bomb_mark user_move ] in
  let lines :=
    lines ++ [ "   Bot: " +:+ bot_move +:+ " " +:+ bomb_mark (Some bot_move);
               "   Result: " +:+ reason round_result ] in
  let lines :=
    lines ++
      [ if decide (winner round_result = "user") then "   🏆 You win this round!"
        else if decide (winner round_result = "bot") then "   🤖 Bot wins this round!"
        else "   🤝 Draw!" ] in
  self ← get_self;
  user_score ← eval (score (game_state self) !! "user");
  bot_score ← eval (score (game_state self) !! "bot");
  let lines :=
    lines ++ [ PyStr.nl +:+ "📊 Score: You " +:+ PyStr.of_int user_score +:+ " - "
                 +:+ PyStr.of_int bot_score +:+ " Bot" ] in
  last ←
    (if game_over (game_state self) then _format_final_result
     else mret (PyStr.nl +:+ "What's your move for Round "
                  +:+ PyStr.of_int (round (game_state self)) +:+ "?"));
  let lines := lines ++ [ last ] in
  mret (PyStr.join PyStr.nl lines).

Definition process_turn `{!PyStr.Unicode} (user_input : string) (rnd : nat) : Method string :=
  self ← get_self;
  if negb (game_started self) then
    mret "Game not started. Please start a new game first."
  else if game_over (game_state self) then
    mret "🚫 The game is already over. Please start a new game."
  else
    let current_round := round (game_state self) in
    validation_result ←
      call ValidateMove (validate_move user_input (game_state self));
    let user_move :=
      if negb (valid validation_result) then None
      else normalized_move validation_result in
    bot_move ← generate_bot_move rnd;
    round_result ←
      match user_move with
      | None =>
          mret {| winner := "bot";
                  reason := "Invalid input - bot wins by default" |}
      | Some user_move =>
          call ResolveRound (resolve_round user_move bot_move)
      end;
    new_state ←
      call UpdateGameState
        (update_game_state (game_state self) user_move bot_move round_result);
    assign_game_state new_state;;
    response ←
      _format_round_response current_round user_move bot_move round_result
        validation_result;
    mret response.

(** [agent.get_game_state()] *)
Definition get_game_state : Method GameState :=
  self ← get_self; mret (game_state self).

(** ** The same tools over a store of objects

    [GameState] instances, their two dicts and their history list are
    mutable Python objects.  Here they live in a store, a state holds
    references to its dicts and its list, and the tools are written statement
    by statement with the reads and writes the source makes.  History entries
    are stored by value: the program builds each one once and never assigns
    to it.  The value-level tools above are the functional reading of these;
    [Store.load] relates the two. *)

Module Store.

Abbreviation loc := nat.

Record StateObj := {
  o_round : Z;
  o_max_rounds : Z;
  o_score : loc;
  o_bomb_used : loc;
  o_history : loc;
  o_game_over : bool
}.

Inductive obj :=
| OGameState (st : StateObj)
| ODictInt (d : gmap string Z)
| ODictBool (d : gmap string bool)
| OList (l : list RoundRecord).

(** Objects are never freed; a reference is an index. *)
Abbreviation store := (list obj).

Inductive exn := KeyError.

(** A command returns, raises, or is [IllTyped]: it came upon a reference
    that does not lead to an object of the class the dataclass declares
    there.  What Python does then is outside this model. *)
Inductive result (A : Type) :=
| Ok (a : A)
| Raise (e : exn)
| IllTyped.
Arguments Ok {A} _.
Arguments Raise {A} _.
Arguments IllTyped {A}.

Record Cmd (A : Type) := mkCmd { exec : store → result A * store }.
Arguments mkCmd {A} _.
Arguments exec {A} _ _.

#[global] Instance Cmd_ret : MRet Cmd := λ A a, mkCmd (λ h, (Ok a, h)).

#[global] Instance Cmd_bind : MBind Cmd :=
  λ A B f m, mkCmd (λ h,
    match exec m h with
    | (Ok a, h') => exec (f a) h'
    | (Raise e, h') => (Raise e, h')
    | (IllTyped, h') => (IllTyped, h')
    end).

Definition raise {A} (e : exn) : Cmd A := mkCmd (λ h, (Raise e, h)).

Definition ill_typed {A} : Cmd A := mkCmd (λ h, (IllTyped, h)).

Definition alloc (o : obj) : Cmd loc :=
  mkCmd (λ h, (Ok (length h), h ++ [o])).

Definition read (l : loc) : Cmd obj :=
  mkCmd (λ h,
    match h !! l with
    | Some o => (Ok o, h)
    | None => (IllTyped, h)
    end).

Definition write (l : loc) (o : obj) : Cmd unit :=
  mkCmd (λ h,
    match h !! l with
    | Some _ => (Ok tt, <[l := o]> h)
    | None => (IllTyped, h)
    end).

Definition read_state (l : loc) : Cmd StateObj :=
  o ← read l; match o with OGameState st => mret st | _ => ill_typed end.
Definition read_dict_int (l : loc) : Cmd (gmap string Z) :=
  o ← read l; match o with ODictInt d => mret d | _ => ill_typed end.
Definition read_dict_bool (l : loc) : Cmd (gmap string bool) :=
  o ← read l; match o with ODictBool d => mret d | _ => ill_typed end.
Definition read_list (l : loc) : Cmd (list RoundRecord) :=
  o ← read l; match o with OList v => mret v | _ => ill_typed end.

(** [d[k]] *)
Definition getitem {V} (d : gmap string V) (k : string) : Cmd V :=
  match d !! k with Some v => mret v | None => raise KeyError end.

(** [GameState()]: the default factories build the two dicts and the list. *)
Definition initialize_game_state : Cmd loc :=
  ls ← alloc (ODictInt (<["user" := 0]> (<["bot" := 0]> ∅)));
  lb ← alloc (ODictBool (<["user" := false]> (<["bot" := false]> ∅)));
  lh ← alloc (OList []);
  alloc (OGameState {| o_round := 1; o_max_rounds := 3; o_score := ls;
                       o_bomb_used := lb; o_history := lh;
                       o_game_over := false |}).

(** [copy.deepcopy(game_state)] of a state object: the state and its two
    dicts and its list are copied into new objects.  [copy.deepcopy] checks
    no types; on a reference that leads to no state object as the dataclass
    declares it the command is [IllTyped], and no property speaks of what
    Python does there. *)
Definition deepcopy (game_state : loc) : Cmd loc :=
  st ← read_state game_state;
  d ← read_dict_int (o_score st);
  b ← read_dict_bool (o_bomb_used st);
  v ← read_list (o_history st);
  ls ← alloc (ODictInt d);
  lb ← alloc (ODictBool b);
  lh ← alloc (OList v);
  alloc (OGameState {| o_round := o_round st; o_max_rounds := o_max_rounds st;
                       o_score := ls; o_bomb_used := lb; o_history := lh;
                       o_game_over := o_game_over st |}).

Definition validate_move `{!PyStr.Unicode} (move : string) (game_state : loc)
  : Cmd ValidationResult :=
  let normalized := PyStr.lower (PyStr.strip move) in
  if decide (normalized ∉ VALID_MOVES) then
    mret {| valid := false;
            normalized_move := None;
            error := Some ("Invalid move '" +:+ move +:+
                           "'. Valid moves: rock, paper, scissors, bomb") |}
  else
    used ← (if decide (normalized = "bomb") then
              st ← read_state game_state;
              b ← read_dict_bool (o_bomb_used st);
              getitem b "user"
            else mret false);
    if (used : bool) then
      mret {| valid := false;
              normalized_move := None;
              error := Some "You have already used your bomb! Choose: rock, paper, or scissors" |}
    else
      mret {| valid := true;
              normalized_move := Some normalized;
              error := None |}.

(** [new_state.score[k] += 1] *)
Definition incr_score (new_state : loc) (k : string) : Cmd unit :=
  st ← read_state new_state;
  d ← read_dict_int (o_score st);
  n ← getitem d k;
  write (o_score st) (ODictInt (<[k := n + 1]> d)).

(** [new_state.bomb_used[k] = True] *)
Definition mark_bomb (new_state : loc) (k : string) : Cmd unit :=
  st ← read_state new_state;
  b ← read_dict_bool (o_bomb_used st);
  write (o_bomb_used st) (ODictBool (<[k := true]> b)).

Definition update_game_state (game_state : loc)
    (user_move : option string) (bot_move : string) (round_result : RoundResult)
  : Cmd loc :=
  new_state ← deepcopy game_state;
  (if decide (winner round_result = "user") then incr_score new_state "user"
   else if decide (winner round_result = "bot") then incr_score new_state "bot"
   else mret tt);;
  (if decide (user_move = Some "bomb") then mark_bomb new_state "user"
   else mret tt);;
  (if decide (bot_move = "bomb") then mark_bomb new_state "bot"
   else mret tt);;
  (st ← read_state new_state;
   v ← read_list (o_history st);
   write (o_history st)
     (OList (v ++ [ {| rec_round := o_round st;
                       rec_user_move := default "INVALID" user_move;
                       rec_bot_move := bot_move;
                       rec_winner := winner round_result;
                       rec_reason := reason round_result |} ])));;
  (st ← read_state new_state;
   write new_state
     (OGameState {| o_round := o_round st + 1; o_max_rounds := o_max_rounds st;
                    o_score := o_score st; o_bomb_used := o_bomb_used st;
                    o_history := o_history st;
                    o_game_over := o_game_over st |}));;
  (st ← read_state new_state;
   if decide (o_round st > o_max_rounds st) then
     write new_state
       (OGameState {| o_round := o_round st; o_max_rounds := o_max_rounds st;
                      o_score := o_score st; o_bomb_used := o_bomb_used st;
                      o_history := o_history st; o_game_over := true |})
   else mret tt);;
  mret new_state.

(** The value a state object stands for: its fields, with the dicts and the
    list it refers to read out of the store. *)
Definition load (h : store) (l : loc) : option GameState :=
  match h !! l with
  | Some (OGameState st) =>
      match h !! o_score st, h !! o_bomb_used st, h !! o_history st with
      | Some (ODictInt d), Some (ODictBool b), Some (OList v) =>
          Some {| round := o_round st; max_rounds := o_max_rounds st;
                  score := d; bomb_used := b; history := v;
                  game_over := o_game_over st |}
      | _, _, _ => None
      end
  | _ => None
  end.

(** The four objects of a state value, laid out from address [base] on in
    the order [deepcopy] allocates them. *)
Definition state_obj (base : loc) (s : GameState) : StateObj :=
  {| o_round := round s; o_max_rounds := max_rounds s;
     o_score := base; o_bomb_used := (base + 1)%nat;
     o_history := (base + 2)%nat; o_game_over := game_over s |}.

Definition objects_of (base : loc) (s : GameState) : list obj :=
  [ ODictInt (score s); ODictBool (bomb_used s); OList (history s);
    OGameState (state_obj base s) ].

End Store.

(** ** main.py

    The console is a list of events, one for each call of [input]: a line
    typed (with the number the bot would draw if the line is played), an
    interrupt from the keyboard, or the end of the input.  What is written is
    a list of outputs.  The loop runs until the events are used up, where it
    is left waiting in [input]. *)

Inductive Event :=
| Line (text : string) (rnd : nat)
| KeyboardInterrupt
| EOFError.

Inductive Output :=
| Print (text : string)
| Prompt (text : string)
(** [print(f"\n❌ Error: {e}")] for an exception [e] out of [process_turn];
    the value layer does not carry the text of [e]. *)
| PrintToolError.

Inductive LoopExit :=
| LoopConditionFalse
| Break
| WaitingForInput
| Raised.

Definition quit_commands : list string := ["quit"; "exit"; "q"].

Fixpoint game_loop `{!PyStr.Unicode} (events : list Event) (agent : GameRefereeAgent)
    (log : list Tool) (out : list Output)
  : LoopExit * GameRefereeAgent * list Tool * list Output :=
  (* while not agent.get_game_state().game_over *)
  match run get_game_state agent log with
  | (None, agent, log) => (Raised, agent, log, out)
  | (Some state, agent, log) =>
      if game_over state then (LoopConditionFalse, agent, log, out)
      else
        let out := out ++ [Prompt (PyStr.nl +:+ "> Your move: ")] in
        match events with
        | [] => (WaitingForInput, agent, log, out)
        | Line text rnd :: rest =>
            let user_input := PyStr.strip text in
            if decide (PyStr.lower user_input ∈ quit_commands) then
              (Break, agent, log,
               out ++ [Print (PyStr.nl +:+ "👋 Thanks for playing! Goodbye!")])
            else if decide (user_input = "") then
              game_loop rest agent log
                (out ++ [Print "⚠️  Please enter a move!"])
            else
              match run (process_turn user_input rnd) agent log with
              | (Some response, agent, log) =>
                  game_loop rest agent log (out ++ [Print response])
              | (None, agent, log) =>
                  game_loop rest agent log
                    (out ++ [PrintToolError; Print "Please try again."])
              end
        | KeyboardInterrupt :: _ =>
            (Break, agent, log,
             out ++ [Print (PyStr.nl +:+ PyStr.nl
                            +:+ "👋 Game interrupted. Goodbye!")])
        | EOFError :: rest =>
            game_loop rest agent log
              (out ++ [Print (PyStr.nl +:+ "❌ Error: EOF when reading a line");
                       Print "Please try again."])
        end
  end.

Definition main `{!PyStr.Unicode} (events : list Event)
  : LoopExit * GameRefereeAgent * list Tool * list Output :=
  let out :=
    [ Print (PyStr.repeat_str "=" 60);
      Print "  ROCK-PAPER-SCISSORS-PLUS GAME REFEREE";
      Print "  Powered by Google ADK";
      Print (PyStr.repeat_str "=" 60) ] in
  let agent := __init__ in
  match run start_game agent [] with
  | (None, agent, log) => (Raised, agent, log, out)
  | (Some welcome, agent, log) =>
      let '(exit, agent, log, out) :=
        game_loop events agent log (out ++ [Print welcome]) in
      match exit with
      | LoopConditionFalse | Break =>
          (exit, agent, log, out ++ [Print (PyStr.nl +:+ PyStr.repeat_str "=" 60)])
      | WaitingForInput | Raised => (exit, agent, log, out)
      end
  end.

(** * Vocabulary of the properties *)

(** Both players have an entry. *)
Definition has_players {V} (d : gmap string V) : Prop :=
  is_Some (d !! "user") ∧ is_Some (d !! "bot").

(** The history entry a call appends. *)
Definition entry_of (s : GameState) (user_move : option string)
    (bot_move : string) (round_result : RoundResult) : RoundRecord :=
  {| rec_round := round s;
     rec_user_move := default "INVALID" user_move;
     rec_bot_move := bot_move;
     rec_winner := winner round_result;
     rec_reason := reason round_result |}.

(** One call's arguments besides the state. *)
Definition Turn : Type := option string * string * RoundResult.

(** Consecutive calls, each fed the state the previous one returned. *)
Fixpoint update_all (s : GameState) (turns : list Turn) : option GameState :=
  match turns with
  | [] => Some s
  | (user_move, bot_move, round_result) :: rest =>
      s' ← update_game_state s user_move bot_move round_result;
      update_all s' rest
  end.

(** What holds of a state reached from the initial one in [n] calls. *)
Record after_calls (n : nat) (s : GameState) : Prop := {
  ac_players : has_players (score s);
  ac_history : length (history s) = n;
  ac_round : round s = 1 + Z.of_nat n;
  ac_max_rounds : max_rounds s = 3;
  ac_game_over : game_over s = true ↔ Z.of_nat n >= max_rounds s
}.

(** The cyclic relation of rule 5: rock beats scissors, scissors beats paper,
    paper beats rock. *)
Definition beats (a b : string) : Prop :=
  (a = "rock" ∧ b = "scissors")
  ∨ (a = "scissors" ∧ b = "paper")
  ∨ (a = "paper" ∧ b = "rock").

#[local] Instance beats_dec a b : Decision (beats a b).
Proof. unfold beats. apply _. Defined.

(** The winner as the specification words it, rule by rule from the top, the
    first rule that applies deciding; no winner where no rule applies. *)
Definition spec_winner (user_move bot_move : string) : option string :=
  if decide (user_move = "bomb" ∧ bot_move = "bomb") then Some "draw"
  else if decide (user_move = "bomb") then Some "user"
  else if decide (bot_move = "bomb") then Some "bot"
  else if decide (user_move = bot_move) then Some "draw"
  else if decide (beats user_move bot_move) then Some "user"
  else if decide (beats bot_move user_move) then Some "bot"
  else None.

(** The flag of a state is set only past the last round: what the updater,
    the one writer of [game_over], keeps of every state it is fed. *)
Definition over_past_last_round (s : GameState) : Prop :=
  game_over s = true → round s > max_rounds s.

(** A run of whitespace characters, as bytes. *)
Inductive whitespace_run : list ascii → Prop :=
| whitespace_run_nil : whitespace_run []
| whitespace_run_cons w r :
    w ∈ PyStr.whitespace → whitespace_run r → whitespace_run (w ++ r).

(** The byte of an ASCII character lowered: A to Z onto a to z, any other
    onto itself. *)
Definition lowered (a b : ascii) : Prop :=
  PyStr.code b
  = if decide (65 ≤ PyStr.code a ≤ 90)%N then (PyStr.code a + 32)%N
    else PyStr.code a.

(** U+00A0, "RoCk", U+3000: a move typed with a no-break space before it
    and an ideographic space after it. *)
Definition padded_rock : string :=
  string_of_list_ascii
    (PyStr.utf8 [0xC2; 0xA0]%N ++ list_ascii_of_string "RoCk"
       ++ PyStr.utf8 [0xE3; 0x80; 0x80]%N).

(** A state whose [score] lacks the bot's entry, and a store that holds it
    at address 3. *)
Definition state_without_bot_score : GameState :=
  set_score {[ "user" := 0 ]} initialize_game_state.

Definition store_without_bot_score : list Store.obj :=
  Store.objects_of 0 state_without_bot_score.

(** U+3000 alone, a line of one ideographic space, and "quit" followed by
    U+00A0, a no-break space. *)
Definition ideographic_space : string :=
  string_of_list_ascii (PyStr.utf8 [0xE3; 0x80; 0x80]%N).

Definition quit_no_break_space : string :=
  "quit" +:+ string_of_list_ascii (PyStr.utf8 [0xC2; 0xA0]%N).

(** U+200B, the zero-width space [str.isspace] does not count as
    whitespace, followed by "rock". *)
Definition zero_width_rock : string :=
  string_of_list_ascii (PyStr.utf8 [0xE2; 0x80; 0x8B]%N) +:+ "rock".

(** The outcome [process_turn] writes down itself for invalid input. *)
Definition invalid_input_result : RoundResult :=
  {| winner := "bot"; reason := "Invalid input - bot wins by default" |}.

(** The move the bot draws for [rnd]. *)
Definition bot_move_drawn (self : GameRefereeAgent) (rnd : nat) : option string :=
  (run (generate_bot_move rnd) self []).1.1.

(** A game played from the start: each turn is the raw input and the number
    drawn for the bot. *)
Fixpoint process_turns `{!PyStr.Unicode} (turns : list (string * nat)) : Method unit :=
  match turns with
  | [] => mret tt
  | (user_input, rnd) :: rest => process_turn user_input rnd;; process_turns rest
  end.

Definition play `{!PyStr.Unicode} (turns : list (string * nat))
  : option unit * GameRefereeAgent * list Tool :=
  run (start_game;; process_turns turns) __init__ [].

Definition agent_after `{!PyStr.Unicode} (turns : list (string * nat)) : GameRefereeAgent :=
  (play turns).1.2.

(** An agent that played three rounds. *)
Definition agent_after_three_rounds `{!PyStr.Unicode} : GameRefereeAgent :=
  agent_after [("rock", 2%nat); ("laser", 0%nat); ("scissors", 1%nat)].

(** The state a store-level call returns, read out of the store it leaves. *)
Definition load_result (r : Store.result nat * list Store.obj) : option GameState :=
  match r with
  | (Store.Ok l, h) => Store.load h l
  | (Store.Raise _, _) => None
  | (Store.IllTyped, _) => None
  end.

(** A started agent in round 1. *)
Definition agent_started : GameRefereeAgent :=
  {| game_state := initialize_game_state; game_started := true |}.

(** The input as [validate_move] normalizes it. *)
Definition normalize `{!PyStr.Unicode} (move : string) : string := PyStr.lower (PyStr.strip move).

Definition invalid_move_error (move : string) : string :=
  "Invalid move '" +:+ move +:+ "'. Valid moves: rock, paper, scissors, bomb".

Definition bomb_used_error : string :=
  "You have already used your bomb! Choose: rock, paper, or scissors".

(** The store [GameState()] leaves when run on an empty one; the state it
    returns is the object at address 3. *)
Definition store_initial : list Store.obj :=
  (Store.exec Store.initialize_game_state []).2.

(** The winner seen from the other side of the table. *)
Definition mirror (w : string) : string :=
  if decide (w = "user") then "bot"
  else if decide (w = "bot") then "user"
  else w.

(** The three moves that are keys of [win_conditions]. *)
Definition plain_moves : list string := ["rock"; "scissors"; "paper"].

(** Rounds [who] has won, as a history records them. *)
Definition wins (who : string) (h : list RoundRecord) : Z :=
  Z.of_nat (length (filter (λ r, rec_winner r = who) h)).

(** The history entry of the call with arguments [t] made in round [n]. *)
Definition entry_in_round (n : Z) (t : Turn) : RoundRecord :=
  {| rec_round := n;
     rec_user_move := default "INVALID" t.1.1;
     rec_bot_move := t.1.2;
     rec_winner := winner t.2;
     rec_reason := reason t.2 |}.

(** The bomb flags agree with the moves in the history. *)
Definition bomb_flags_match_history (s : GameState) : Prop :=
  bomb_used s !! "user"
  = Some (bool_decide (Exists (λ r, rec_user_move r = "bomb") (history s)))
  ∧ bomb_used s !! "bot"
    = Some (bool_decide (Exists (λ r, rec_bot_move r = "bomb") (history s))).

(** The user move [process_turn] goes on with after validation: the
    normalized move of a valid result, none otherwise. *)
Definition move_of (v : ValidationResult) : option string :=
  if negb (valid v) then None else normalized_move v.

(** The tools [process_turn] invokes for a validation result. *)
Definition tools_for (v : ValidationResult) : list Tool :=
  match move_of v with
  | None => [ValidateMove; UpdateGameState]
  | Some _ => [ValidateMove; ResolveRound; UpdateGameState]
  end.

(** A started agent whose state has both players in both dicts. *)
Definition agent_ok (a : GameRefereeAgent) : Prop :=
  game_started a = true
  ∧ has_players (score (game_state a))
  ∧ has_players (bomb_used (game_state a)).

(** An agent [n] rounds into a game of three. *)
Definition rounds_played (n : nat) (a : GameRefereeAgent) : Prop :=
  (n ≤ 3)%nat
  ∧ round (game_state a) = 1 + Z.of_nat n
  ∧ length (history (game_state a)) = n
  ∧ max_rounds (game_state a) = 3
  ∧ (game_over (game_state a) = true ↔ n = 3%nat).

(** History entries in which the user, respectively the bot, played bomb. *)
Definition user_bombs (h : list RoundRecord) : nat :=
  length (filter (λ r, rec_user_move r = "bomb") h).

Definition bot_bombs (h : list RoundRecord) : nat :=
  length (filter (λ r, rec_bot_move r = "bomb") h).

(** No side has played bomb twice, and a side whose flag is false has not
    played it at all. *)
Definition bomb_once (a : GameRefereeAgent) : Prop :=
  agent_ok a
  ∧ (bomb_used (game_state a) !! "user" = Some false →
     user_bombs (history (game_state a)) = 0%nat)
  ∧ (user_bombs (history (game_state a)) ≤ 1)%nat
  ∧ (bomb_used (game_state a) !! "bot" = Some false →
     bot_bombs (history (game_state a)) = 0%nat)
  ∧ (bot_bombs (history (game_state a)) ≤ 1)%nat.

(** Consecutive store-level calls, each on the reference the previous one
    returned. *)
Fixpoint store_update_all (l : nat) (turns : list Turn) : Store.Cmd nat :=
  match turns with
  | [] => mret l
  | (user_move, bot_move, round_result) :: rest =>
      l' ← Store.update_game_state l user_move bot_move round_result;
      store_update_all l' rest
  end.

(** Two states made one after the other. *)
Definition two_fresh_states : Store.Cmd (nat * nat) :=
  l1 ← Store.initialize_game_state;
  l2 ← Store.initialize_game_state;
  mret (l1, l2).

(** The initial state after one drawn round of rock against rock. *)
Definition state_after_draw : GameState :=
  set_round 2
    (set_history
       [ {| rec_round := 1; rec_user_move := "rock"; rec_bot_move := "rock";
            rec_winner := "draw"; rec_reason := "Both played rock" |} ]
       initialize_game_state).

(** The lines that reach [process_turn] if the game lasts: trimmed, the
    empty ones left out, up to the first quit command or interrupt. *)
Fixpoint typed_moves `{!PyStr.Unicode} (events : list Event) : list (string * nat) :=
  match events with
  | [] => []
  | Line text rnd :: rest =>
      let user_input := PyStr.strip text in
      if decide (PyStr.lower user_input ∈ quit_commands) then []
      else if decide (user_input = "") then typed_moves rest
      else (user_input, rnd) :: typed_moves rest
  | KeyboardInterrupt :: _ => []
  | EOFError :: rest => typed_moves rest
  end.

(** Whether the events before the game is decided hold a quit command or an
    interrupt: the loop is left by [break] after fewer than [n] more moves. *)
Fixpoint breaks_within `{!PyStr.Unicode} (n : nat) (events : list Event) : bool :=
  match n, events with
  | O, _ => false
  | _, [] => false
  | S k, Line text rnd :: rest =>
      let user_input := PyStr.strip text in
      if decide (PyStr.lower user_input ∈ quit_commands) then true
      else if decide (user_input = "") then breaks_within n rest
      else breaks_within k rest
  | S _, KeyboardInterrupt :: _ => true
  | S _, EOFError :: rest => breaks_within n rest
  end.

(** What [process_turn] passes to the updater in a state [s]: a valid bot
    move, no user move with the invalid-input outcome or a valid user move
    with the resolver's outcome, and a bomb only from a side whose flag is
    false. *)
Definition turn_facts `{!PyStr.Unicode} (s : GameState) (user_move : option string)
    (bot_move : string) (round_result : RoundResult) : Prop :=
  bot_move ∈ VALID_MOVES
  ∧ (bot_move = "bomb" → bomb_used s !! "bot" = Some false)
  ∧ match user_move with
    | None => round_result = invalid_input_result
    | Some m =>
        m ∈ VALID_MOVES
        ∧ (m = "bomb" → bomb_used s !! "user" = Some false)
        ∧ resolve_round m bot_move = Some round_result
    end.

(** A history entry as the rules give it: a valid bot move and either a
    forfeit, or a valid user move with the resolver's winner and reason. *)
Definition entry_by_rules `{!PyStr.Unicode} (r : RoundRecord) : Prop :=
  rec_bot_move r ∈ VALID_MOVES
  ∧ ((rec_user_move r = "INVALID"
      ∧ rec_winner r = "bot"
      ∧ rec_reason r = "Invalid input - bot wins by default")
     ∨ (rec_user_move r ∈ VALID_MOVES
        ∧ resolve_round (rec_user_move r) (rec_bot_move r)
          = Some {| winner := rec_winner r; reason := rec_reason r |})).

(** The history follows the rules and the scores count its wins. *)
Definition fair_record `{!PyStr.Unicode} (s : GameState) : Prop :=
  Forall entry_by_rules (history s)
  ∧ score s !! "user" = Some (wins "user" (history s))
  ∧ score s !! "bot" = Some (wins "bot" (history s)).

(** * Properties *)

Section properties.

(** The case mapping of strings that are not ASCII is a parameter: every
    property below holds whatever [str.lower] and [str.capitalize] return
    on them. *)
Context {unicode : PyStr.Unicode}.

(** ** The state updater, field by field *)

Section update_fields.
Context (s s' : GameState) (user_move : option string) (bot_move : string)
        (round_result : RoundResult).
Hypothesis Hcall :
  update_game_state s user_move bot_move round_result = Some s'.

Lemma update_round : round s' = round s + 1.
Proof.
  revert Hcall. unfold update_game_state.
  repeat case_decide; intros; simplify_option_eq; reflexivity.
Qed.

Lemma update_max_rounds : max_rounds s' = max_rounds s.
Proof.
  revert Hcall. unfold update_game_state.
  repeat case_decide; intros; simplify_option_eq; reflexivity.
Qed.

Lemma update_history :
  history s' = history s ++ [entry_of s user_move bot_move round_result].
Proof.
  revert Hcall. unfold update_game_state.
  repeat case_decide; intros; simplify_option_eq; reflexivity.
Qed.

Lemma update_game_over :
  game_over s' = game_over s || bool_decide (round s + 1 > max_rounds s).
Proof.
  revert Hcall. unfold update_game_state.
  repeat case_decide; intros; simplify_option_eq;
    rewrite ?bool_decide_eq_true_2, ?bool_decide_eq_false_2,
            ?orb_true_r, ?orb_false_r by assumption; reflexivity.
Qed.

Lemma update_bomb_used :
  bomb_used s' =
    (if decide (bot_move = "bomb") then <["bot" := true]> else id)
      ((if decide (user_move = Some "bomb") then <["user" := true]> else id)
         (bomb_used s)).
Proof.
  revert Hcall. unfold update_game_state.
  repeat case_decide; intros; simplify_option_eq; reflexivity.
Qed.

Lemma update_score_user :
  winner round_result = "user" →
  ∃ n, score s !! "user" = Some n ∧ score s' = <["user" := n + 1]> (score s).
Proof.
  revert Hcall. unfold update_game_state.
  repeat case_decide; intros; simplify_option_eq; eauto; congruence.
Qed.

Lemma update_score_bot :
  winner round_result = "bot" →
  ∃ n, score s !! "bot" = Some n ∧ score s' = <["bot" := n + 1]> (score s).
Proof.
  revert Hcall. unfold update_game_state.
  repeat case_decide; intros; simplify_option_eq; eauto; congruence.
Qed.

Lemma update_score_other :
  winner round_result ≠ "user" → winner round_result ≠ "bot" →
  score s' = score s.
Proof.
  revert Hcall. unfold update_game_state.
  repeat case_decide; intros; simplify_option_eq; eauto; congruence.
Qed.
End update_fields.

(** With an entry for both players in [score], the updater returns. *)
Lemma update_returns s user_move bot_move round_result :
  has_players (score s) →
  is_Some (update_game_state s user_move bot_move round_result).
Proof.
  intros [[u Hu] [b Hb]]. unfold update_game_state.
  rewrite Hu, Hb. simpl. repeat case_decide; eauto.
Qed.

Lemma update_keeps_players s s' user_move bot_move round_result :
  update_game_state s user_move bot_move round_result = Some s' →
  has_players (score s) → has_players (score s').
Proof.
  intros Hcall [Hu Hb].
  destruct (decide (winner round_result = "user")) as [Wu|Wu].
  - destruct (update_score_user _ _ _ _ _ Hcall Wu) as (n & _ & ->).
    split; [rewrite lookup_insert_eq; eauto | rewrite lookup_insert_ne; done].
  - destruct (decide (winner round_result = "bot")) as [Wb|Wb].
    + destruct (update_score_bot _ _ _ _ _ Hcall Wb) as (n & _ & ->).
      split; [rewrite lookup_insert_ne; done | rewrite lookup_insert_eq; eauto].
    + rewrite (update_score_other _ _ _ _ _ Hcall Wu Wb). done.
Qed.

(** ** Runs of the updater *)

Lemma after_calls_initial : after_calls 0 initialize_game_state.
Proof.
  split; try reflexivity.
  - split; eexists; reflexivity.
  - simpl. split; [discriminate | lia].
Qed.

Lemma after_calls_step n s s' user_move bot_move round_result :
  after_calls n s →
  update_game_state s user_move bot_move round_result = Some s' →
  after_calls (S n) s'.
Proof.
  intros [Hp Hh Hr Hm Hg] Hcall. split.
  - eapply update_keeps_players; eassumption.
  - rewrite (update_history _ _ _ _ _ Hcall), length_app. simpl. lia.
  - rewrite (update_round _ _ _ _ _ Hcall). lia.
  - rewrite (update_max_rounds _ _ _ _ _ Hcall). assumption.
  - rewrite (update_game_over _ _ _ _ _ Hcall),
            (update_max_rounds _ _ _ _ _ Hcall), orb_true_iff,
            bool_decide_eq_true, Hg.
    lia.
Qed.

Lemma update_all_after_calls turns : ∀ n s,
  after_calls n s →
  ∃ s', update_all s turns = Some s' ∧ after_calls (n + length turns) s'.
Proof.
  induction turns as [|[[user_move bot_move] round_result] rest IH];
    intros n s Hs; simpl.
  - exists s. rewrite Nat.add_0_r. auto.
  - destruct (update_returns s user_move bot_move round_result (ac_players _ _ Hs))
      as [s1 Hs1].
    rewrite Hs1. simpl.
    destruct (IH (S n) s1) as (s' & Hrun & Hs').
    { eapply after_calls_step; eassumption. }
    exists s'. split; [assumption|].
    replace (n + S (length rest))%nat with (S n + length rest)%nat by lia.
    assumption.
Qed.

(** C1: from the state [initialize_game_state] produces, any [N] consecutive
    calls of [update_game_state] (arbitrary moves and outcomes, each call fed
    the previous result) return, and the state they end in has a history of
    length [N], round [1 + N], [max_rounds] still 3, and [game_over] true
    exactly when [N >= max_rounds]. *)
Theorem update_all_from_initial (turns : list Turn) :
  ∃ s, update_all initialize_game_state turns = Some s
       ∧ length (history s) = length turns
       ∧ round s = 1 + Z.of_nat (length turns)
       ∧ max_rounds s = 3
       ∧ (game_over s = true ↔ Z.of_nat (length turns) >= 3).
Proof.
  destruct (update_all_after_calls turns 0 _ after_calls_initial)
    as (s & Hrun & [_ Hh Hr Hm Hg]).
  exists s. simpl in *. rewrite Hm in Hg. auto.
Qed.

(** ** The resolver against the precedence rules *)

Lemma valid_move_cases (m : string) :
  m ∈ VALID_MOVES → m = "rock" ∨ m = "paper" ∨ m = "scissors" ∨ m = "bomb".
Proof.
  unfold VALID_MOVES. rewrite !elem_of_cons, elem_of_nil. tauto.
Qed.

(** C2: on every pair of moves out of rock, paper, scissors and bomb,
    [resolve_round] returns, and its winner is the one the precedence rules
    give: a draw for two bombs, the side with the only bomb, a draw for equal
    moves, and otherwise the side whose move beats the other's. *)
Theorem resolve_round_precedence (user_move bot_move : string) :
  user_move ∈ VALID_MOVES → bot_move ∈ VALID_MOVES →
  ∃ r, resolve_round user_move bot_move = Some r
       ∧ spec_winner user_move bot_move = Some (winner r).
Proof.
  intros Hu Hb.
  apply valid_move_cases in Hu. apply valid_move_cases in Hb.
  destruct Hu as [->|[->|[->| ->]]]; destruct Hb as [->|[->|[->| ->]]];
    eexists; (split; [vm_compute; reflexivity | vm_compute; reflexivity]).
Qed.

(** ** Bomb flags *)

Lemma update_bomb_flag_kept s s' user_move bot_move round_result (k : string) :
  update_game_state s user_move bot_move round_result = Some s' →
  bomb_used s !! k = Some true → bomb_used s' !! k = Some true.
Proof.
  intros Hcall Hk. rewrite (update_bomb_used _ _ _ _ _ Hcall).
  repeat case_decide; simpl;
    repeat (rewrite lookup_insert; case_decide); done.
Qed.

Lemma update_all_bomb_flag_kept turns (k : string) : ∀ s s',
  update_all s turns = Some s' →
  bomb_used s !! k = Some true → bomb_used s' !! k = Some true.
Proof.
  induction turns as [|[[user_move bot_move] round_result] rest IH];
    intros s s' Hrun Hk; simpl in Hrun.
  - congruence.
  - destruct (update_game_state s user_move bot_move round_result) as [s1|] eqn:H1;
      [|discriminate].
    simpl in Hrun. eapply IH; [eassumption|].
    eapply update_bomb_flag_kept; eassumption.
Qed.

(** C3: a call of [update_game_state] on a state whose [score] has both
    players returns a state in which a bomb flag that was true is still true,
    the user's flag is true when [user_move] is "bomb" and the bot's when
    [bot_move] is "bomb"; and through any further run of calls a flag that is
    true stays true. *)
Theorem update_bomb_flags s user_move bot_move round_result :
  has_players (score s) →
  ∃ s', update_game_state s user_move bot_move round_result = Some s'
    ∧ (bomb_used s !! "user" = Some true → bomb_used s' !! "user" = Some true)
    ∧ (bomb_used s !! "bot" = Some true → bomb_used s' !! "bot" = Some true)
    ∧ (user_move = Some "bomb" → bomb_used s' !! "user" = Some true)
    ∧ (bot_move = "bomb" → bomb_used s' !! "bot" = Some true)
    ∧ (∀ turns s'' k, update_all s turns = Some s'' →
         bomb_used s !! k = Some true → bomb_used s'' !! k = Some true).
Proof.
  intros Hp.
  destruct (update_returns s user_move bot_move round_result Hp) as [s' Hcall].
  exists s'. split; [assumption|].
  split; [apply (update_bomb_flag_kept _ _ _ _ _ _ Hcall)|].
  split; [apply (update_bomb_flag_kept _ _ _ _ _ _ Hcall)|].
  rewrite (update_bomb_used _ _ _ _ _ Hcall).
  split; [|split].
  - intros ->. repeat case_decide; simpl; try done.
    + rewrite lookup_insert_ne by done. apply lookup_insert_eq.
    + apply lookup_insert_eq.
  - intros ->. repeat case_decide; simpl; try done; apply lookup_insert_eq.
  - intros turns s'' k. apply update_all_bomb_flag_kept.
Qed.

Lemma initial_has_players : has_players (score initialize_game_state).
Proof. split; eexists; reflexivity. Defined.

(** ** Scores *)

(** C7: a call of [update_game_state] on a state whose [score] has both
    players returns a state whose user score is one more and bot score the
    same when the outcome's winner is "user", symmetrically for "bot", and
    both scores the same on "draw"; in every case neither score is lower than
    before. *)
Theorem update_score_by_winner s user_move bot_move round_result :
  has_players (score s) →
  ∃ s' u b u' b',
    update_game_state s user_move bot_move round_result = Some s'
    ∧ score s !! "user" = Some u ∧ score s !! "bot" = Some b
    ∧ score s' !! "user" = Some u' ∧ score s' !! "bot" = Some b'
    ∧ (winner round_result = "user" → u' = u + 1 ∧ b' = b)
    ∧ (winner round_result = "bot" → u' = u ∧ b' = b + 1)
    ∧ (winner round_result = "draw" → u' = u ∧ b' = b)
    ∧ (u ≤ u')%Z ∧ (b ≤ b')%Z.
Proof.
  intros Hp.
  destruct (update_returns s user_move bot_move round_result Hp) as [s' Hcall].
  destruct Hp as [[u Hu] [b Hb]].
  destruct (decide (winner round_result = "user")) as [Wu|Wu].
  - destruct (update_score_user _ _ _ _ _ Hcall Wu) as (n & Hn & Hs').
    assert (n = u) as -> by congruence.
    exists s', u, b, (u + 1), b. rewrite Hs', lookup_insert_eq, lookup_insert_ne by done.
    rewrite Wu. repeat split; try done; lia.
  - destruct (decide (winner round_result = "bot")) as [Wb|Wb].
    + destruct (update_score_bot _ _ _ _ _ Hcall Wb) as (n & Hn & Hs').
      assert (n = b) as -> by congruence.
      exists s', u, b, u, (b + 1).
      rewrite Hs', lookup_insert_eq, lookup_insert_ne by done.
      rewrite Wb. repeat split; try done; lia.
    + exists s', u, b, u, b.
      rewrite (update_score_other _ _ _ _ _ Hcall Wu Wb).
      repeat split; try done; lia.
Qed.

(** ** Termination flag *)

(** The initial state is not over, so its flag is set only past the last
    round, and the updater keeps that: so it holds of every state reached
    from the initial one. *)
Lemma initial_over_past_last_round : over_past_last_round initialize_game_state.
Proof. intros H. discriminate H. Qed.

Lemma update_over_past_last_round s user_move bot_move round_result s' :
  update_game_state s user_move bot_move round_result = Some s' →
  over_past_last_round s → over_past_last_round s'.
Proof.
  intros Hcall Hs. unfold over_past_last_round in *.
  rewrite (update_game_over _ _ _ _ _ Hcall), (update_round _ _ _ _ _ Hcall),
    (update_max_rounds _ _ _ _ _ Hcall), orb_true_iff, bool_decide_eq_true.
  intros [Hover|Hlast]; [specialize (Hs Hover); lia | exact Hlast].
Qed.

Lemma update_all_over_past_last_round turns : ∀ s s',
  update_all s turns = Some s' →
  over_past_last_round s → over_past_last_round s'.
Proof.
  induction turns as [|[[user_move bot_move] round_result] rest IH];
    intros s s' Hrun Hs; simpl in Hrun.
  - injection Hrun as <-. exact Hs.
  - destruct (update_game_state s user_move bot_move round_result) as [s1|] eqn:Hcall;
      [|discriminate].
    simpl in Hrun. apply (IH _ _ Hrun).
    exact (update_over_past_last_round _ _ _ _ _ Hcall Hs).
Qed.

Lemma reachable_over_past_last_round turns s :
  update_all initialize_game_state turns = Some s → over_past_last_round s.
Proof.
  intros Hrun.
  exact (update_all_over_past_last_round _ _ _ Hrun initial_over_past_last_round).
Qed.

(** C8: on a state with both players whose flag, if set, is set past the
    last round, as it is of the initial state and of every state the updater
    returns on such a state, the call returns a state that is over exactly
    when its incremented round exceeds [max_rounds]; a state that is over
    stays over; and the returned state's flag is again set only past the
    last round. *)
Theorem update_game_over_flag s user_move bot_move round_result :
  has_players (score s) →
  over_past_last_round s →
  ∃ s', update_game_state s user_move bot_move round_result = Some s'
    ∧ round s' = round s + 1
    ∧ max_rounds s' = max_rounds s
    ∧ (game_over s' = true ↔ round s' > max_rounds s')
    ∧ (game_over s = true → game_over s' = true)
    ∧ over_past_last_round s'.
Proof.
  intros Hp Hs.
  destruct (update_returns s user_move bot_move round_result Hp) as [s' Hcall].
  exists s'.
  pose proof (update_over_past_last_round _ _ _ _ _ Hcall Hs) as Hs'.
  pose proof (update_round _ _ _ _ _ Hcall) as Hr.
  pose proof (update_max_rounds _ _ _ _ _ Hcall) as Hm.
  pose proof (update_game_over _ _ _ _ _ Hcall) as Hg.
  split; [assumption|]. split; [assumption|]. split; [assumption|].
  split; [|split; [|exact Hs']].
  - split; [exact Hs'|].
    intros Hlast. rewrite Hg, orb_true_iff, bool_decide_eq_true. right. lia.
  - intros Hover. rewrite Hg, Hover. reflexivity.
Qed.

(** ** The referee *)

Lemma run_bind {A B} (m : Method A) (f : A → Method B) self log :
  run (m ≫= f) self log =
    match run m self log with
    | (Some a, self', log') => run (f a) self' log'
    | (None, self', log') => (None, self', log')
    end.
Proof. reflexivity. Qed.

Lemma generate_bot_move_run self rnd log :
  run (generate_bot_move rnd) self log = (bot_move_drawn self rnd, self, log).
Proof.
  unfold bot_move_drawn, generate_bot_move. simpl.
  destruct (bomb_used (game_state self) !! "bot") as [[|]|]; reflexivity.
Qed.

(** [random.choice] on a list that is not empty returns one of its
    elements. *)
Lemma choice_in (l : list string) (rnd : nat) :
  l ≠ [] → ∃ m, l !! (rnd mod length l)%nat = Some m ∧ m ∈ l.
Proof.
  intros Hl.
  assert (rnd mod length l < length l)%nat as Hlt.
  { apply Nat.mod_upper_bound. destruct l; [done | simpl; lia]. }
  destruct (lookup_lt_is_Some_2 l _ Hlt) as [m Hm].
  exists m. split; [assumption|]. eapply list_elem_of_lookup_2. eassumption.
Qed.

Lemma bot_move_drawn_some self rnd :
  is_Some (bomb_used (game_state self) !! "bot") →
  ∃ m, bot_move_drawn self rnd = Some m ∧ m ∈ VALID_MOVES.
Proof.
  intros [used Hused]. unfold bot_move_drawn, generate_bot_move.
  rewrite run_bind. cbn [run get_self]. rewrite run_bind. cbn [run eval].
  rewrite Hused. rewrite run_bind. destruct used; cbn [run eval].
  - change (list_remove "bomb" VALID_MOVES) with (Some ["rock"; "paper"; "scissors"]).
    destruct (choice_in ["rock"; "paper"; "scissors"] rnd ltac:(done)) as (m & Hm & Hin).
    rewrite Hm. exists m. split; [reflexivity|].
    unfold VALID_MOVES. rewrite !elem_of_cons in *. tauto.
  - destruct (choice_in VALID_MOVES rnd ltac:(done)) as (m & Hm & Hin).
    rewrite Hm. exists m. split; [reflexivity | assumption].
Qed.

(** The bot draws "bomb" only while its flag is false. *)
Lemma bot_move_drawn_bomb self rnd :
  bot_move_drawn self rnd = Some "bomb" →
  bomb_used (game_state self) !! "bot" = Some false.
Proof.
  unfold bot_move_drawn, generate_bot_move.
  rewrite run_bind. cbn [run get_self]. rewrite run_bind. cbn [run eval].
  destruct (bomb_used (game_state self) !! "bot") as [[|]|];
    [|reflexivity|discriminate].
  rewrite run_bind. cbn [run eval].
  change (list_remove "bomb" VALID_MOVES) with (Some ["rock"; "paper"; "scissors"]).
  cbn [fst]. intros Hm. apply list_elem_of_lookup_2 in Hm.
  rewrite !elem_of_cons, elem_of_nil in Hm.
  destruct Hm as [?|[?|[?|[]]]]; discriminate.
Qed.

Lemma format_final_result_returns self log :
  has_players (score (game_state self)) →
  ∃ text, run _format_final_result self log = (Some text, self, log).
Proof.
  intros [[u Hu] [b Hb]]. unfold _format_final_result.
  rewrite run_bind. cbn [run get_self]. rewrite run_bind. cbn [run eval].
  rewrite Hu. rewrite run_bind. cbn [run eval]. rewrite Hb.
  eexists. reflexivity.
Qed.

Lemma format_round_response_returns self log round_num user_move bot_move
    round_result validation_result :
  has_players (score (game_state self)) →
  ∃ text,
    run (_format_round_response round_num user_move bot_move round_result
           validation_result) self log = (Some text, self, log).
Proof.
  intros Hp.
  destruct (format_final_result_returns self log Hp) as [final Hfinal].
  destruct Hp as [[u Hu] [b Hb]]. unfold _format_round_response.
  rewrite run_bind. cbn [run get_self]. rewrite run_bind. cbn [run eval].
  rewrite Hu. rewrite run_bind. cbn [run eval]. rewrite Hb.
  rewrite run_bind.
  destruct (game_over (game_state self)).
  - rewrite Hfinal. eexists. reflexivity.
  - eexists. reflexivity.
Qed.

(** C4: whatever the input, [process_turn] on an agent whose game has not
    been started, or whose state is over, returns the rejection message of
    that case, invokes no tool, and leaves the agent as it was: the same
    state (score, round, bomb flags, history, [game_over]) and the same
    [game_started]. *)
Theorem process_turn_rejects self user_input rnd log :
  game_started self = false ∨ game_over (game_state self) = true →
  ∃ msg,
    run (process_turn user_input rnd) self log = (Some msg, self, log)
    ∧ (game_started self = false →
       msg = "Game not started. Please start a new game first.")
    ∧ (game_started self = true →
       msg = "🚫 The game is already over. Please start a new game.").
Proof.
  intros H. unfold process_turn. rewrite run_bind. cbn [run get_self].
  destruct (game_started self) eqn:Hs; cbn [negb].
  - destruct H as [H|H]; [discriminate|]. rewrite H.
    eexists. split; [reflexivity|]. split; [discriminate | reflexivity].
  - eexists. split; [reflexivity|]. split; [reflexivity | discriminate].
Qed.

Lemma process_turn_invalid_run self user_input rnd log v bot_move s' :
  game_started self = true →
  game_over (game_state self) = false →
  validate_move user_input (game_state self) = Some v →
  valid v = false →
  bot_move_drawn self rnd = Some bot_move →
  update_game_state (game_state self) None bot_move invalid_input_result = Some s' →
  has_players (score s') →
  ∃ resp,
    run (process_turn user_input rnd) self log
    = (Some resp, {| game_state := s'; game_started := true |},
       log ++ [ValidateMove; UpdateGameState]).
Proof.
  intros Hs Ho Hv Hf Hb Hu Hp.
  unfold process_turn. rewrite run_bind. cbn [run get_self].
  rewrite Hs, Ho. cbn [negb].
  rewrite run_bind. cbn [run call]. rewrite Hv, Hf. cbn [negb].
  rewrite run_bind, generate_bot_move_run, Hb.
  rewrite run_bind. cbn [run mret Method_ret].
  rewrite run_bind. cbn [run call].
  fold invalid_input_result. rewrite Hu.
  rewrite run_bind. cbn [run assign_game_state]. rewrite Hs.
  rewrite run_bind.
  edestruct (format_round_response_returns
               {| game_state := s'; game_started := true |}) as [text Htext];
    [exact Hp|].
  rewrite Htext. cbn [run mret Method_ret].
  rewrite <- app_assoc. eexists. reflexivity.
Qed.

(** C5: on a started game that is not over, when validation of the raw
    input fails, [process_turn] returns having invoked [validate_move] and
    [update_game_state] and not [resolve_round]; in the agent's new state the
    bot's score is one higher, the user's score is the same, the round is one
    higher, and the history is the old one followed by one entry, which
    carries the round number before the increment, "INVALID" as the user's
    move, the move drawn for the bot, winner "bot" and the invalid-input
    reason. *)
Theorem process_turn_invalid_input self user_input rnd log v :
  game_started self = true →
  game_over (game_state self) = false →
  has_players (score (game_state self)) →
  is_Some (bomb_used (game_state self) !! "bot") →
  validate_move user_input (game_state self) = Some v →
  valid v = false →
  ∃ resp self' bot_move u b,
    run (process_turn user_input rnd) self log
    = (Some resp, self', log ++ [ValidateMove; UpdateGameState])
    ∧ (ResolveRound ∉ [ValidateMove; UpdateGameState])
    ∧ bot_move_drawn self rnd = Some bot_move
    ∧ game_started self' = true
    ∧ score (game_state self) !! "user" = Some u
    ∧ score (game_state self) !! "bot" = Some b
    ∧ score (game_state self') !! "bot" = Some (b + 1)
    ∧ score (game_state self') !! "user" = Some u
    ∧ round (game_state self') = round (game_state self) + 1
    ∧ history (game_state self')
      = history (game_state self) ++
          [ {| rec_round := round (game_state self);
               rec_user_move := "INVALID";
               rec_bot_move := bot_move;
               rec_winner := "bot";
               rec_reason := "Invalid input - bot wins by default" |} ].
Proof.
  intros Hs Ho Hp Hbomb Hv Hf.
  destruct (bot_move_drawn_some self rnd Hbomb) as (bot_move & Hb & _).
  destruct (update_returns (game_state self) None bot_move invalid_input_result Hp)
    as [s' Hcall].
  pose proof (update_keeps_players _ _ _ _ _ Hcall Hp) as Hp'.
  destruct (process_turn_invalid_run self user_input rnd log v bot_move s'
              Hs Ho Hv Hf Hb Hcall Hp') as [resp Hrun].
  destruct (update_score_bot _ _ _ _ _ Hcall eq_refl) as (b & Hsb & Hscore).
  destruct Hp as [[u Hsu] _].
  exists resp, {| game_state := s'; game_started := true |}, bot_move, u, b.
  cbn [game_state game_started].
  split; [exact Hrun|].
  split; [rewrite !elem_of_cons, elem_of_nil; intros [?|[?|[]]]; discriminate|].
  split; [exact Hb|]. split; [reflexivity|].
  split; [exact Hsu|]. split; [exact Hsb|].
  rewrite Hscore, lookup_insert_eq, lookup_insert_ne by done.
  split; [reflexivity|]. split; [exact Hsu|].
  split; [exact (update_round _ _ _ _ _ Hcall)|].
  exact (update_history _ _ _ _ _ Hcall).
Qed.

Lemma agent_started_bot_flag :
  is_Some (bomb_used (game_state agent_started) !! "bot").
Proof. eexists. reflexivity. Defined.

Lemma validate_laser :
  validate_move "laser" (game_state agent_started)
  = Some {| valid := false; normalized_move := None;
            error := Some "Invalid move 'laser'. Valid moves: rock, paper, scissors, bomb" |}.
Proof. vm_compute. reflexivity. Defined.

(** C10: on a started game that is not over, when validation of the raw
    input fails and the move drawn for the bot is "bomb", [process_turn]
    returns; the bot's bomb flag, false before, is true in the new state, and
    the entry appended to the history has "INVALID" as the user's move,
    "bomb" as the bot's, winner "bot" and the invalid-input reason. *)
Theorem process_turn_invalid_input_bot_bomb self user_input rnd log v :
  game_started self = true →
  game_over (game_state self) = false →
  has_players (score (game_state self)) →
  validate_move user_input (game_state self) = Some v →
  valid v = false →
  bot_move_drawn self rnd = Some "bomb" →
  ∃ resp self',
    run (process_turn user_input rnd) self log
    = (Some resp, self', log ++ [ValidateMove; UpdateGameState])
    ∧ bomb_used (game_state self) !! "bot" = Some false
    ∧ bomb_used (game_state self') !! "bot" = Some true
    ∧ history (game_state self')
      = history (game_state self) ++
          [ {| rec_round := round (game_state self);
               rec_user_move := "INVALID";
               rec_bot_move := "bomb";
               rec_winner := "bot";
               rec_reason := "Invalid input - bot wins by default" |} ].
Proof.
  intros Hs Ho Hp Hv Hf Hb.
  destruct (update_returns (game_state self) None "bomb" invalid_input_result Hp)
    as [s' Hcall].
  pose proof (update_keeps_players _ _ _ _ _ Hcall Hp) as Hp'.
  destruct (process_turn_invalid_run self user_input rnd log v "bomb" s'
              Hs Ho Hv Hf Hb Hcall Hp') as [resp Hrun].
  exists resp, {| game_state := s'; game_started := true |}.
  cbn [game_state].
  split; [exact Hrun|].
  split; [exact (bot_move_drawn_bomb self rnd Hb)|].
  split; [|exact (update_history _ _ _ _ _ Hcall)].
  rewrite (update_bomb_used _ _ _ _ _ Hcall).
  rewrite decide_True by reflexivity. apply lookup_insert_eq.
Qed.

(** ** The store layer against the value layer *)

Section store_steps.
Import Store.

Lemma exec_bind {A B} (m : Cmd A) (f : A → Cmd B) h :
  exec (m ≫= f) h =
    match exec m h with
    | (Ok a, h') => exec (f a) h'
    | (Raise e, h') => (Raise e, h')
    | (IllTyped, h') => (IllTyped, h')
    end.
Proof. reflexivity. Qed.

Lemma exec_read h l o : h !! l = Some o → exec (read l) h = (Ok o, h).
Proof. intros H. unfold read. cbn [exec]. rewrite H. reflexivity. Qed.

Lemma exec_read_state h l st :
  h !! l = Some (OGameState st) → exec (read_state l) h = (Ok st, h).
Proof.
  intros H. unfold read_state. rewrite exec_bind, (exec_read _ _ _ H).
  reflexivity.
Qed.

Lemma exec_read_dict_int h l d :
  h !! l = Some (ODictInt d) → exec (read_dict_int l) h = (Ok d, h).
Proof.
  intros H. unfold read_dict_int. rewrite exec_bind, (exec_read _ _ _ H).
  reflexivity.
Qed.

Lemma exec_read_dict_bool h l d :
  h !! l = Some (ODictBool d) → exec (read_dict_bool l) h = (Ok d, h).
Proof.
  intros H. unfold read_dict_bool. rewrite exec_bind, (exec_read _ _ _ H).
  reflexivity.
Qed.

Lemma exec_read_list h l v :
  h !! l = Some (OList v) → exec (read_list l) h = (Ok v, h).
Proof.
  intros H. unfold read_list. rewrite exec_bind, (exec_read _ _ _ H).
  reflexivity.
Qed.

(** Objects allocated after [h] sit behind it. *)
Lemma lookup_new (h t : store) i k :
  i = (length h + k)%nat → (h ++ t) !! i = t !! k.
Proof.
  intros ->. rewrite lookup_app_r by lia. f_equal. lia.
Qed.

Lemma lookup_new_first (h t : store) : (h ++ t) !! length h = t !! 0%nat.
Proof. apply lookup_new. lia. Qed.

Lemma exec_write_new (h t : store) i k o :
  i = (length h + k)%nat → is_Some (t !! k) →
  exec (write i o) (h ++ t) = (Ok tt, h ++ <[k := o]> t).
Proof.
  intros -> [o' Hk]. unfold write. cbn [exec].
  rewrite (lookup_new h t _ k eq_refl), Hk, insert_app_r. reflexivity.
Qed.

Lemma load_inv h l s :
  load h l = Some s →
  ∃ st, h !! l = Some (OGameState st)
        ∧ h !! o_score st = Some (ODictInt (score s))
        ∧ h !! o_bomb_used st = Some (ODictBool (bomb_used s))
        ∧ h !! o_history st = Some (OList (history s))
        ∧ o_round st = round s ∧ o_max_rounds st = max_rounds s
        ∧ o_game_over st = game_over s.
Proof.
  unfold load. destruct (h !! l) as [[st| | |]|] eqn:Hl; try discriminate.
  destruct (h !! o_score st) as [[|d| |]|] eqn:Hd; try discriminate.
  destruct (h !! o_bomb_used st) as [[| |b|]|] eqn:Hb; try discriminate.
  destruct (h !! o_history st) as [[| | |v]|] eqn:Hv; try discriminate.
  intros [= <-]. exists st. simpl. repeat split; (reflexivity || assumption).
Qed.

Lemma load_new h s :
  load (h ++ objects_of (length h) s) (length h + 3) = Some s.
Proof.
  unfold load, objects_of.
  rewrite (lookup_new h _ _ 3 eq_refl).
  cbn [lookup list_lookup state_obj o_score o_bomb_used o_history].
  rewrite lookup_new_first,
          (lookup_new h _ (length h + 1)%nat 1 eq_refl),
          (lookup_new h _ (length h + 2)%nat 2 eq_refl).
  simpl. destruct s; reflexivity.
Qed.

(** Reads and writes on the objects of a fresh copy. *)
Section on_copy.
Context (h : store) (s : GameState).
Local Abbreviation h1 := (h ++ objects_of (length h) s).
Local Abbreviation new_state := (length h + 3)%nat.

Lemma copy_read_state :
  exec (read_state new_state) h1 = (Ok (state_obj (length h) s), h1).
Proof.
  apply exec_read_state.
  rewrite (lookup_new h _ _ 3 eq_refl). reflexivity.
Qed.

Lemma copy_incr_score k n :
  score s !! k = Some n →
  exec (incr_score new_state k) h1
  = (Ok tt, h ++ objects_of (length h) (set_score (<[k := n + 1]> (score s)) s)).
Proof.
  intros Hk. unfold incr_score.
  rewrite exec_bind, copy_read_state. cbn [state_obj o_score].
  rewrite exec_bind, (exec_read_dict_int h1 (length h) (score s));
    [|rewrite lookup_new_first; reflexivity].
  rewrite exec_bind. unfold getitem. rewrite Hk. cbn [exec mret Cmd_ret].
  rewrite (exec_write_new h _ (length h) 0) by (lia || (eexists; reflexivity)).
  reflexivity.
Qed.

Lemma copy_incr_score_raises k :
  score s !! k = None →
  exec (incr_score new_state k) h1 = (Raise KeyError, h1).
Proof.
  intros Hk. unfold incr_score.
  rewrite exec_bind, copy_read_state. cbn [state_obj o_score].
  rewrite exec_bind, (exec_read_dict_int h1 (length h) (score s));
    [|rewrite lookup_new_first; reflexivity].
  rewrite exec_bind. unfold getitem. rewrite Hk. reflexivity.
Qed.

Lemma copy_mark_bomb k :
  exec (mark_bomb new_state k) h1
  = (Ok tt, h ++ objects_of (length h)
                   (set_bomb_used (<[k := true]> (bomb_used s)) s)).
Proof.
  unfold mark_bomb.
  rewrite exec_bind, copy_read_state. cbn [state_obj o_bomb_used].
  rewrite exec_bind, (exec_read_dict_bool h1 (length h + 1) (bomb_used s));
    [|rewrite (lookup_new h _ _ 1 eq_refl); reflexivity].
  rewrite (exec_write_new h _ _ 1) by (lia || (eexists; reflexivity)).
  reflexivity.
Qed.

Lemma copy_append_history e :
  exec (st ← read_state new_state;
        v ← read_list (o_history st);
        write (o_history st) (OList (v ++ [e (o_round st)]))) h1
  = (Ok tt, h ++ objects_of (length h)
                   (set_history (history s ++ [e (round s)]) s)).
Proof.
  rewrite exec_bind, copy_read_state. cbn [state_obj o_history o_round].
  rewrite exec_bind, (exec_read_list h1 (length h + 2) (history s));
    [|rewrite (lookup_new h _ _ 2 eq_refl); reflexivity].
  rewrite (exec_write_new h _ _ 2) by (lia || (eexists; reflexivity)).
  reflexivity.
Qed.

Lemma copy_write_state st :
  exec (write new_state (OGameState st)) h1
  = (Ok tt, h ++ [ ODictInt (score s); ODictBool (bomb_used s);
                   OList (history s); OGameState st ]).
Proof.
  rewrite (exec_write_new h _ _ 3) by (lia || (eexists; reflexivity)).
  reflexivity.
Qed.

Lemma copy_incr_round :
  exec (st ← read_state new_state;
        write new_state
          (OGameState {| o_round := o_round st + 1;
                         o_max_rounds := o_max_rounds st;
                         o_score := o_score st;
                         o_bomb_used := o_bomb_used st;
                         o_history := o_history st;
                         o_game_over := o_game_over st |})) h1
  = (Ok tt, h ++ objects_of (length h) (set_round (round s + 1) s)).
Proof.
  rewrite exec_bind, copy_read_state, copy_write_state. reflexivity.
Qed.

Lemma copy_check_over :
  exec (st ← read_state new_state;
        if decide (o_round st > o_max_rounds st) then
          write new_state
            (OGameState {| o_round := o_round st;
                           o_max_rounds := o_max_rounds st;
                           o_score := o_score st;
                           o_bomb_used := o_bomb_used st;
                           o_history := o_history st;
                           o_game_over := true |})
        else mret tt) h1
  = (Ok tt, h ++ objects_of (length h)
                   (if decide (round s > max_rounds s)
                    then set_game_over true s else s)).
Proof.
  rewrite exec_bind, copy_read_state. cbn [state_obj o_round o_max_rounds].
  case_decide; [rewrite copy_write_state|]; reflexivity.
Qed.
End on_copy.

Lemma deepcopy_exec h l s :
  load h l = Some s →
  exec (deepcopy l) h = (Ok (length h + 3)%nat, h ++ objects_of (length h) s).
Proof.
  intros Hload.
  destruct (load_inv _ _ _ Hload) as (st & Hl & Hd & Hb & Hv & Hr & Hm & Hg).
  unfold deepcopy.
  rewrite exec_bind, (exec_read_state _ _ _ Hl).
  rewrite exec_bind, (exec_read_dict_int _ _ _ Hd).
  rewrite exec_bind, (exec_read_dict_bool _ _ _ Hb).
  rewrite exec_bind, (exec_read_list _ _ _ Hv).
  repeat (rewrite exec_bind; cbn [exec alloc]).
  rewrite !length_app. cbn [length].
  rewrite <- !app_assoc, <- !Nat.add_assoc. cbn [app Nat.add].
  unfold objects_of, state_obj. rewrite Hr, Hm, Hg. reflexivity.
Qed.

Lemma deepcopy_ill_typed h l :
  load h l = None → exec (deepcopy l) h = (IllTyped, h).
Proof.
  unfold load, deepcopy, read_state, read_dict_int, read_dict_bool,
    read_list, read.
  rewrite !exec_bind. cbn [exec].
  destruct (h !! l) as [[st| | |]|]; try reflexivity.
  cbn [exec mret Cmd_ret]. rewrite !exec_bind. cbn [exec].
  destruct (h !! o_score st) as [[|d| |]|]; try reflexivity.
  cbn [exec mret Cmd_ret]. rewrite !exec_bind. cbn [exec].
  destruct (h !! o_bomb_used st) as [[| |b|]|]; try reflexivity.
  cbn [exec mret Cmd_ret]. rewrite !exec_bind. cbn [exec].
  destruct (h !! o_history st) as [[| | |v]|]; try reflexivity.
  discriminate.
Qed.

End store_steps.

(** The store-level updater computes the value-level one on a fresh copy:
    it is [Store.IllTyped] where the reference is not a state, raises
    [Store.KeyError] where the value-level updater does, and otherwise returns a
    reference to four new objects that hold the updated value. *)
Lemma update_game_state_exec h l user_move bot_move round_result :
  Store.exec (Store.update_game_state l user_move bot_move round_result) h =
    match Store.load h l with
    | None => (Store.IllTyped, h)
    | Some s =>
        match update_game_state s user_move bot_move round_result with
        | Some s' => (Store.Ok (length h + 3)%nat, h ++ Store.objects_of (length h) s')
        | None => (Store.Raise Store.KeyError, h ++ Store.objects_of (length h) s)
        end
    end.
Proof.
  unfold Store.update_game_state, update_game_state.
  rewrite exec_bind.
  destruct (Store.load h l) as [s|] eqn:Hload;
    [rewrite (deepcopy_exec _ _ _ Hload) | rewrite (deepcopy_ill_typed _ _ Hload); reflexivity].
  rewrite exec_bind.
  assert (∀ s1,
    Store.exec
      ((if decide (user_move = Some "bomb")
        then Store.mark_bomb (length h + 3) "user" else mret tt);;
       (if decide (bot_move = "bomb")
        then Store.mark_bomb (length h + 3) "bot" else mret tt);;
       (st ← Store.read_state (length h + 3)%nat;
        v ← Store.read_list (Store.o_history st);
        Store.write (Store.o_history st)
          (Store.OList (v ++ [ {| rec_round := Store.o_round st;
                            rec_user_move := default "INVALID" user_move;
                            rec_bot_move := bot_move;
                            rec_winner := winner round_result;
                            rec_reason := reason round_result |} ])));;
       (st ← Store.read_state (length h + 3)%nat;
        Store.write (length h + 3)%nat
          (Store.OGameState {| Store.o_round := Store.o_round st + 1;
                         Store.o_max_rounds := Store.o_max_rounds st;
                         Store.o_score := Store.o_score st;
                         Store.o_bomb_used := Store.o_bomb_used st;
                         Store.o_history := Store.o_history st;
                         Store.o_game_over := Store.o_game_over st |}));;
       (st ← Store.read_state (length h + 3)%nat;
        if decide (Store.o_round st > Store.o_max_rounds st) then
          Store.write (length h + 3)%nat
            (Store.OGameState {| Store.o_round := Store.o_round st;
                           Store.o_max_rounds := Store.o_max_rounds st;
                           Store.o_score := Store.o_score st;
                           Store.o_bomb_used := Store.o_bomb_used st;
                           Store.o_history := Store.o_history st;
                           Store.o_game_over := true |})
        else mret tt);;
       mret (length h + 3)%nat)
      (h ++ Store.objects_of (length h) s1)
    = match
        (let new_state :=
           if decide (user_move = Some "bomb")
           then set_bomb_used (<["user" := true]> (bomb_used s1)) s1
           else s1 in
         let new_state :=
           if decide (bot_move = "bomb")
           then set_bomb_used (<["bot" := true]> (bomb_used new_state)) new_state
           else new_state in
         let new_state :=
           set_history
             (history new_state ++
                [ {| rec_round := round new_state;
                     rec_user_move := default "INVALID" user_move;
                     rec_bot_move := bot_move;
                     rec_winner := winner round_result;
                     rec_reason := reason round_result |} ])
             new_state in
         let new_state := set_round (round new_state + 1) new_state in
         let new_state :=
           if decide (round new_state > max_rounds new_state)
           then set_game_over true new_state
           else new_state in
         Some new_state)
      with
      | Some s' => (Store.Ok (length h + 3)%nat, h ++ Store.objects_of (length h) s')
      | None => (Store.Raise Store.KeyError, h ++ Store.objects_of (length h) s1)
      end) as Hrest.
  { intros s1. cbv zeta.
    rewrite exec_bind.
    destruct (decide (user_move = Some "bomb"));
      [rewrite copy_mark_bomb | cbn [Store.exec mret Store.Cmd_ret]];
      (rewrite exec_bind;
       destruct (decide (bot_move = "bomb"));
         [rewrite copy_mark_bomb | cbn [Store.exec mret Store.Cmd_ret]];
         rewrite exec_bind;
         rewrite (copy_append_history h _
                    (λ r, {| rec_round := r;
                             rec_user_move := default "INVALID" user_move;
                             rec_bot_move := bot_move;
                             rec_winner := winner round_result;
                             rec_reason := reason round_result |}));
         rewrite exec_bind, copy_incr_round;
         rewrite exec_bind, copy_check_over;
         reflexivity). }
  destruct (decide (winner round_result = "user")) as [Wu|Wu].
  - destruct (score s !! "user") as [n|] eqn:Hn.
    + rewrite (copy_incr_score h s _ _ Hn). cbn [mbind option_bind]. apply Hrest.
    + rewrite (copy_incr_score_raises h s _ Hn). reflexivity.
  - destruct (decide (winner round_result = "bot")) as [Wb|Wb].
    + destruct (score s !! "bot") as [n|] eqn:Hn.
      * rewrite (copy_incr_score h s _ _ Hn). cbn [mbind option_bind]. apply Hrest.
      * rewrite (copy_incr_score_raises h s _ Hn). reflexivity.
    + cbn [Store.exec mret Store.Cmd_ret mbind option_bind]. apply Hrest.
Qed.

Lemma load_app h t l s :
  Store.load h l = Some s → Store.load (h ++ t) l = Some s.
Proof.
  intros Hload.
  destruct (load_inv _ _ _ Hload) as (st & Hl & Hd & Hb & Hv & Hr & Hm & Hg).
  unfold Store.load.
  rewrite (lookup_app_l_Some _ t _ _ Hl), (lookup_app_l_Some _ t _ _ Hd),
          (lookup_app_l_Some _ t _ _ Hb), (lookup_app_l_Some _ t _ _ Hv).
  rewrite Hr, Hm, Hg. destruct s; reflexivity.
Qed.

(** [validate_move] reads the state and writes nothing: whatever the store
    and the reference, the store after the call is the store before it. *)
Lemma validate_move_store_unchanged h l move :
  (Store.exec (Store.validate_move move l) h).2 = h.
Proof.
  unfold Store.validate_move.
  case_decide; [reflexivity|].
  rewrite exec_bind.
  case_decide; [|reflexivity].
  unfold Store.read_state, Store.read_dict_bool, Store.read, Store.getitem.
  rewrite !exec_bind. cbn [Store.exec].
  destruct (h !! l) as [[st| | |]|]; try reflexivity.
  cbn [Store.exec mret Store.Cmd_ret]. rewrite !exec_bind. cbn [Store.exec].
  destruct (h !! Store.o_bomb_used st) as [[| |b|]|]; try reflexivity.
  cbn [Store.exec mret Store.Cmd_ret].
  destruct (b !! "user") as [[|]|]; reflexivity.
Qed.

(** On a state object the store-level validator returns what the value-level
    one returns on its value, and raises [KeyError] where that one does. *)
Lemma validate_move_exec h l s move :
  Store.load h l = Some s →
  Store.exec (Store.validate_move move l) h
  = (match validate_move move s with
     | Some v => Store.Ok v
     | None => Store.Raise Store.KeyError
     end, h).
Proof.
  intros Hload.
  destruct (load_inv _ _ _ Hload) as (st & Hl & Hd & Hb & Hv & Hr & Hm & Hg).
  unfold Store.validate_move, validate_move.
  case_decide; [reflexivity|].
  rewrite exec_bind.
  case_decide.
  - rewrite exec_bind, (exec_read_state _ _ _ Hl).
    rewrite exec_bind, (exec_read_dict_bool _ _ _ Hb).
    unfold Store.getitem.
    destruct (bomb_used s !! "user") as [[|]|]; reflexivity.
  - reflexivity.
Qed.

(** ** Trimming and lowering *)

Lemma starts_with_spec (w l : list ascii) :
  PyStr.starts_with w l = true ↔ ∃ r, l = w ++ r.
Proof.
  revert l. induction w as [|a w IH]; intros l; simpl.
  - split; [eauto | reflexivity].
  - destruct l as [|b l]; [split; [discriminate | intros [r [=]]]|].
    rewrite andb_true_iff, bool_decide_eq_true, IH. split.
    + intros [-> [r ->]]. eauto.
    + intros [r [= -> ->]]. eauto.
Qed.

Lemma ends_with_spec (w l : list ascii) :
  PyStr.ends_with w l = true ↔ ∃ r, l = r ++ w.
Proof.
  unfold PyStr.ends_with. rewrite starts_with_spec. split.
  - intros [r Hr]. exists (rev r). apply (f_equal (@rev ascii)) in Hr.
    rewrite rev_involutive, rev_app_distr, rev_involutive in Hr. exact Hr.
  - intros [r ->]. exists (rev r). apply rev_app_distr.
Qed.

Lemma whitespace_not_empty (w : list ascii) : w ∈ PyStr.whitespace → w ≠ [].
Proof.
  intros Hw ->. revert Hw. unfold PyStr.whitespace.
  rewrite list_elem_of_fmap. intros (bs & Hbs & Hin).
  destruct bs; [|discriminate].
  revert Hin. rewrite !elem_of_cons, elem_of_nil.
  intros H. repeat (destruct H as [H|H]; [discriminate H|]). exact H.
Qed.

Lemma space_at_head_some l w :
  PyStr.space_at_head l = Some w → w ∈ PyStr.whitespace ∧ ∃ r, l = w ++ r.
Proof.
  intros H. apply find_some in H as [Hin Hs].
  split; [apply list_elem_of_In; exact Hin | apply starts_with_spec; exact Hs].
Qed.

Lemma space_at_head_none l w :
  PyStr.space_at_head l = None → w ∈ PyStr.whitespace → ¬ w `prefix_of` l.
Proof.
  intros H Hw [r Hr]. apply list_elem_of_In in Hw.
  pose proof (find_none _ _ H w Hw) as Hf. simpl in Hf.
  assert (PyStr.starts_with w l = true) by (apply starts_with_spec; eauto).
  congruence.
Qed.

Lemma space_at_tail_some l w :
  PyStr.space_at_tail l = Some w → w ∈ PyStr.whitespace ∧ ∃ r, l = r ++ w.
Proof.
  intros H. apply find_some in H as [Hin Hs].
  split; [apply list_elem_of_In; exact Hin | apply ends_with_spec; exact Hs].
Qed.

Lemma space_at_tail_none l w :
  PyStr.space_at_tail l = None → w ∈ PyStr.whitespace → ¬ w `suffix_of` l.
Proof.
  intros H Hw [r Hr]. apply list_elem_of_In in Hw.
  pose proof (find_none _ _ H w Hw) as Hf. simpl in Hf.
  assert (PyStr.ends_with w l = true) by (apply ends_with_spec; eauto).
  congruence.
Qed.

Lemma whitespace_run_app a b :
  whitespace_run a → whitespace_run b → whitespace_run (a ++ b).
Proof.
  intros Ha Hb. induction Ha as [|w r Hw Hr IH]; [exact Hb|].
  rewrite <- app_assoc. constructor; assumption.
Qed.

Lemma whitespace_run_one w : w ∈ PyStr.whitespace → whitespace_run w.
Proof.
  intros Hw. rewrite <- (app_nil_r w). constructor; [exact Hw | constructor].
Qed.

Lemma lstrip_bytes_spec fuel : ∀ l,
  (length l ≤ fuel)%nat →
  ∃ pre, l = pre ++ PyStr.lstrip_bytes fuel l
         ∧ whitespace_run pre
         ∧ PyStr.space_at_head (PyStr.lstrip_bytes fuel l) = None.
Proof.
  induction fuel as [|k IH]; intros l Hlen.
  - destruct l; [|simpl in Hlen; lia].
    exists []. split; [reflexivity|]. split; [constructor | reflexivity].
  - cbn [PyStr.lstrip_bytes].
    destruct (PyStr.space_at_head l) as [w|] eqn:Hhead.
    + destruct (space_at_head_some _ _ Hhead) as (Hw & r & ->).
      pose proof (whitespace_not_empty w Hw) as Hne.
      rewrite drop_app_length.
      destruct (IH r) as (pre & Hpre & Hrun & Hnone).
      { rewrite length_app in Hlen. destruct w; [contradiction | simpl in Hlen; lia]. }
      exists (w ++ pre). rewrite <- app_assoc, <- Hpre.
      split; [reflexivity|]. split; [constructor; assumption | exact Hnone].
    + exists []. split; [reflexivity|]. split; [constructor | exact Hhead].
Qed.

Lemma rstrip_bytes_spec fuel : ∀ l,
  (length l ≤ fuel)%nat →
  ∃ post, l = PyStr.rstrip_bytes fuel l ++ post
          ∧ whitespace_run post
          ∧ PyStr.space_at_tail (PyStr.rstrip_bytes fuel l) = None.
Proof.
  induction fuel as [|k IH]; intros l Hlen.
  - destruct l; [|simpl in Hlen; lia].
    exists []. split; [reflexivity|]. split; [constructor | reflexivity].
  - cbn [PyStr.rstrip_bytes].
    destruct (PyStr.space_at_tail l) as [w|] eqn:Htail.
    + destruct (space_at_tail_some _ _ Htail) as (Hw & r & ->).
      pose proof (whitespace_not_empty w Hw) as Hne.
      replace (length (r ++ w) - length w)%nat with (length r)
        by (rewrite length_app; lia).
      rewrite take_app_length.
      destruct (IH r) as (post & Hpost & Hrun & Hnone).
      { rewrite length_app in Hlen. destruct w; [contradiction | simpl in Hlen; lia]. }
      exists (post ++ w). rewrite app_assoc, <- Hpost.
      split; [reflexivity|].
      split; [apply whitespace_run_app; [assumption | apply whitespace_run_one; exact Hw]
             | exact Hnone].
    + exists []. rewrite app_nil_r.
      split; [reflexivity|]. split; [constructor | exact Htail].
Qed.

(** [strip] takes a run of whitespace characters off each end and leaves a
    string that neither starts nor ends with one. *)
Lemma strip_spec (s : string) :
  ∃ pre post,
    list_ascii_of_string s = pre ++ list_ascii_of_string (PyStr.strip s) ++ post
    ∧ whitespace_run pre ∧ whitespace_run post
    ∧ (∀ w, w ∈ PyStr.whitespace →
            ¬ w `prefix_of` list_ascii_of_string (PyStr.strip s)
            ∧ ¬ w `suffix_of` list_ascii_of_string (PyStr.strip s)).
Proof.
  unfold PyStr.strip. rewrite list_ascii_of_string_of_list_ascii.
  unfold PyStr.strip_bytes.
  set (l := list_ascii_of_string s).
  destruct (lstrip_bytes_spec (length l) l (le_n _)) as (pre & Hpre & Hrun & Hhead).
  set (m := PyStr.lstrip_bytes (length l) l) in *.
  destruct (rstrip_bytes_spec (length m) m (le_n _)) as (post & Hpost & Hrun' & Htail).
  set (t := PyStr.rstrip_bytes (length m) m) in *.
  exists pre, post. rewrite <- Hpost.
  split; [exact Hpre|]. split; [exact Hrun|]. split; [exact Hrun'|].
  intros w Hw. split; [|exact (space_at_tail_none _ _ Htail Hw)].
  intros [r Hr]. apply (space_at_head_none _ _ Hhead Hw).
  exists (r ++ post). rewrite Hpost, Hr, <- app_assoc. reflexivity.
Qed.

Lemma ascii_lower_lowered (s : string) :
  Forall2 lowered (list_ascii_of_string s)
    (list_ascii_of_string (PyStr.ascii_lower s)).
Proof.
  induction s as [|c r IH]; simpl; constructor; [|exact IH].
  unfold lowered, PyStr.lower_char, PyStr.code.
  destruct (decide (65 ≤ N_of_ascii c ≤ 90)%N) as [H|H].
  - rewrite (proj2 (N.leb_le _ _) (proj1 H)), (proj2 (N.leb_le _ _) (proj2 H)).
    simpl. apply N_ascii_embedding. lia.
  - destruct (65 <=? N_of_ascii c)%N eqn:E1; destruct (N_of_ascii c <=? 90)%N eqn:E2;
      simpl; try reflexivity.
    apply N.leb_le in E1, E2. lia.
Qed.

Lemma lower_ascii (s : string) :
  PyStr.is_ascii s = true →
  Forall2 lowered (list_ascii_of_string s) (list_ascii_of_string (PyStr.lower s)).
Proof.
  intros Hascii. unfold PyStr.lower. rewrite Hascii. apply ascii_lower_lowered.
Qed.

(** ** The validator *)

(** C6: on a state whose [bomb_used] has the user's entry, [validate_move]
    returns and leaves the store as it was.  The move it judges is the input
    trimmed and lowercased: the input is a run of whitespace characters, the
    trimmed input and another run of whitespace characters, the trimmed
    input neither starts nor ends with a whitespace character, and where it
    is ASCII the judged move is it with A to Z mapped onto a to z, character
    by character.  The result is valid, with the judged move as normalized
    move and no error, exactly when the judged move is one of the four moves
    and is not "bomb" while the user's bomb flag is true; otherwise it is
    invalid, with no normalized move and an error, which is the already-used
    message in the bomb case and, different from it, the invalid-move
    message naming the raw input otherwise. *)
Theorem validate_move_spec h l s move :
  Store.load h l = Some s →
  is_Some (bomb_used s !! "user") →
  ∃ v pre post,
    Store.exec (Store.validate_move move l) h = (Store.Ok v, h)
    ∧ validate_move move s = Some v
    ∧ list_ascii_of_string move
      = pre ++ list_ascii_of_string (PyStr.strip move) ++ post
    ∧ whitespace_run pre ∧ whitespace_run post
    ∧ (∀ w, w ∈ PyStr.whitespace →
         ¬ w `prefix_of` list_ascii_of_string (PyStr.strip move)
         ∧ ¬ w `suffix_of` list_ascii_of_string (PyStr.strip move))
    ∧ normalize move = PyStr.lower (PyStr.strip move)
    ∧ (PyStr.is_ascii (PyStr.strip move) = true →
       Forall2 lowered (list_ascii_of_string (PyStr.strip move))
         (list_ascii_of_string (normalize move)))
    ∧ (valid v = true ↔
       normalize move ∈ VALID_MOVES
       ∧ ¬ (normalize move = "bomb" ∧ bomb_used s !! "user" = Some true))
    ∧ (valid v = true →
       normalized_move v = Some (normalize move) ∧ error v = None)
    ∧ (valid v = false → normalized_move v = None ∧ is_Some (error v))
    ∧ (normalize move ∉ VALID_MOVES →
       error v = Some (invalid_move_error move))
    ∧ (normalize move = "bomb" → bomb_used s !! "user" = Some true →
       error v = Some bomb_used_error
       ∧ bomb_used_error ≠ invalid_move_error move).
Proof.
  intros Hload [used Hused].
  destruct (strip_spec move) as (pre & post & Hsplit & Hpre & Hpost & Hends).
  assert (Hrest : ∃ v,
    Store.exec (Store.validate_move move l) h = (Store.Ok v, h)
    ∧ validate_move move s = Some v
    ∧ (valid v = true ↔
       normalize move ∈ VALID_MOVES
       ∧ ¬ (normalize move = "bomb" ∧ bomb_used s !! "user" = Some true))
    ∧ (valid v = true →
       normalized_move v = Some (normalize move) ∧ error v = None)
    ∧ (valid v = false → normalized_move v = None ∧ is_Some (error v))
    ∧ (normalize move ∉ VALID_MOVES →
       error v = Some (invalid_move_error move))
    ∧ (normalize move = "bomb" → bomb_used s !! "user" = Some true →
       error v = Some bomb_used_error
       ∧ bomb_used_error ≠ invalid_move_error move)).
  { rewrite (validate_move_exec _ _ _ _ Hload).
    unfold validate_move. fold (normalize move).
    assert (Hbomb : "bomb" ∈ VALID_MOVES) by (unfold VALID_MOVES; repeat constructor).
    assert (Hne : bomb_used_error ≠ invalid_move_error move) by discriminate.
    destruct (decide (normalize move ∉ VALID_MOVES)) as [Hout|Hin].
    - eexists. split; [reflexivity|]. split; [reflexivity|]. cbn.
      split; [split; [discriminate | intros [Hin _]; contradiction]|].
      split; [discriminate|].
      split; [intros _; split; [reflexivity | eexists; reflexivity]|].
      split; [intros _; reflexivity|].
      intros E _. exfalso. apply Hout. rewrite E. exact Hbomb.
    - apply dec_stable in Hin.
      destruct (decide (normalize move = "bomb")) as [Eb|Eb].
      + rewrite Hused. cbn [mbind option_bind].
        destruct used; (eexists; split; [reflexivity|]; split; [reflexivity|]); cbn.
        * split; [split; [discriminate | intros [_ H]; exfalso; apply H; auto]|].
          split; [discriminate|].
          split; [intros _; split; [reflexivity | eexists; reflexivity]|].
          split; [intros Hout; contradiction|].
          intros _ _. split; [reflexivity | exact Hne].
        * split; [split; [intros _; split; [exact Hin | intros [_ H]; discriminate]
                         | reflexivity]|].
          split; [intros _; split; reflexivity|].
          split; [discriminate|].
          split; [intros Hout; contradiction|].
          intros _ H. discriminate.
      + cbn [mbind option_bind].
        eexists. split; [reflexivity|]. split; [reflexivity|]. cbn.
        split; [split; [intros _; split; [exact Hin | intros [H _]; contradiction]
                       | reflexivity]|].
        split; [intros _; split; reflexivity|].
        split; [discriminate|].
        split; [intros Hout; contradiction|].
        intros H. contradiction. }
  destruct Hrest as (v & Hexec & Hval & Hrest).
  exists v, pre, post.
  split; [exact Hexec|]. split; [exact Hval|]. split; [exact Hsplit|].
  split; [exact Hpre|]. split; [exact Hpost|]. split; [exact Hends|].
  split; [reflexivity|].
  split; [intros Hascii; apply lower_ascii; exact Hascii | exact Hrest].
Qed.

Lemma load_store_initial : Store.load store_initial 3 = Some initialize_game_state.
Proof. reflexivity. Defined.

Lemma initial_user_flag : is_Some (bomb_used initialize_game_state !! "user").
Proof. eexists. reflexivity. Defined.

(** ** The updater works on a copy *)

(** C9: called on a reference to a state object whose [score] has both
    players, [update_game_state] returns a reference to a state object that
    did not exist before the call, whose dicts and history list did not exist
    either, and which holds the updated value; every object the store held
    before the call is the same after it, and the input state reads the same
    value as before in every field. *)
Theorem update_game_state_leaves_input h l s user_move bot_move round_result :
  Store.load h l = Some s →
  has_players (score s) →
  ∃ l' h' s' st',
    Store.exec (Store.update_game_state l user_move bot_move round_result) h
    = (Store.Ok l', h')
    ∧ update_game_state s user_move bot_move round_result = Some s'
    ∧ Store.load h' l' = Some s'
    ∧ h !! l' = None
    ∧ h' !! l' = Some (Store.OGameState st')
    ∧ h !! Store.o_score st' = None
    ∧ h !! Store.o_bomb_used st' = None
    ∧ h !! Store.o_history st' = None
    ∧ (∀ i o, h !! i = Some o → h' !! i = Some o)
    ∧ Store.load h' l = Some s.
Proof.
  intros Hload Hp.
  destruct (update_returns s user_move bot_move round_result Hp) as [s' Hcall].
  exists (length h + 3)%nat, (h ++ Store.objects_of (length h) s'), s',
         (Store.state_obj (length h) s').
  rewrite update_game_state_exec, Hload, Hcall.
  split; [reflexivity|]. split; [reflexivity|].
  split; [apply load_new|].
  split; [apply lookup_ge_None_2; lia|].
  split; [rewrite (lookup_new h _ _ 3 eq_refl); reflexivity|].
  cbn [Store.state_obj Store.o_score Store.o_bomb_used Store.o_history].
  split; [apply lookup_ge_None_2; lia|].
  split; [apply lookup_ge_None_2; lia|].
  split; [apply lookup_ge_None_2; lia|].
  split; [intros i o Hi; apply lookup_app_l_Some; exact Hi|].
  apply load_app. exact Hload.
Qed.

(** Whether the call returns or raises, the store after it is the store
    before it followed by objects the call allocated. *)
Lemma update_game_state_extends_store h l user_move bot_move round_result :
  ∃ t,
    (Store.exec (Store.update_game_state l user_move bot_move round_result) h).2
    = h ++ t.
Proof.
  rewrite update_game_state_exec.
  destruct (Store.load h l) as [s|];
    [destruct (update_game_state s user_move bot_move round_result)|];
    cbn [snd]; eauto.
  exists []. rewrite app_nil_r. reflexivity.
Qed.

(** * Further properties of the tools *)

Lemma win_conditions_lookup (m : string) :
  is_Some (win_conditions !! m) ↔ m ∈ plain_moves.
Proof.
  unfold win_conditions, plain_moves.
  rewrite !elem_of_cons, elem_of_nil.
  rewrite !lookup_insert. repeat case_decide; subst.
  - split; [auto | eauto].
  - split; [auto | eauto].
  - split; [auto | eauto].
  - rewrite lookup_empty. split; [intros [? ?]; discriminate|].
    intros [?|[?|[?|[]]]]; congruence.
Qed.

(** X1: on valid moves the resolver treats both sides alike: with the two
    moves exchanged it returns the mirrored winner, user for bot, bot for
    user, a draw for a draw. *)
Theorem resolve_round_mirror (user_move bot_move : string) :
  user_move ∈ VALID_MOVES → bot_move ∈ VALID_MOVES →
  ∃ r r', resolve_round user_move bot_move = Some r
          ∧ resolve_round bot_move user_move = Some r'
          ∧ winner r' = mirror (winner r).
Proof.
  intros Hu Hb.
  apply valid_move_cases in Hu. apply valid_move_cases in Hb.
  destruct Hu as [->|[->|[->| ->]]]; destruct Hb as [->|[->|[->| ->]]];
    eexists _, _; (split; [vm_compute; reflexivity|]);
    (split; [vm_compute; reflexivity|]); vm_compute; reflexivity.
Qed.

Lemma rock_valid : "rock" ∈ VALID_MOVES.
Proof. unfold VALID_MOVES. repeat constructor. Defined.

Lemma bomb_valid : "bomb" ∈ VALID_MOVES.
Proof. unfold VALID_MOVES. repeat constructor. Defined.

(** X2: on arbitrary strings the resolver returns exactly when one move is
    "bomb", the moves are equal, or the user's move is rock, scissors or
    paper; in every other case the lookup in [win_conditions] raises
    [KeyError].  When it returns, the winner is "user", "bot" or "draw". *)
Theorem resolve_round_returns_iff (user_move bot_move : string) :
  (is_Some (resolve_round user_move bot_move) ↔
     user_move = "bomb" ∨ bot_move = "bomb" ∨ user_move = bot_move
     ∨ user_move ∈ plain_moves)
  ∧ (∀ r, resolve_round user_move bot_move = Some r →
          winner r ∈ ["user"; "bot"; "draw"]).
Proof.
  pose proof (win_conditions_lookup user_move) as Hw.
  unfold resolve_round. repeat case_decide.
  - split; [split; [intros _; tauto | eauto]|].
    intros r [= <-]. simpl. repeat constructor.
  - split; [split; [intros _; tauto | eauto]|].
    intros r [= <-]. simpl. repeat constructor.
  - split; [split; [intros _; tauto | eauto]|].
    intros r [= <-]. simpl. repeat constructor.
  - split; [split; [intros _; tauto | eauto]|].
    intros r [= <-]. simpl. repeat constructor.
  - destruct (win_conditions !! user_move) as [beaten|] eqn:Hl; simpl.
    + assert (user_move ∈ plain_moves) by (apply Hw; eauto).
      case_decide.
      * split; [split; [intros _; tauto | eauto]|].
        intros r [= <-]. simpl. repeat constructor.
      * split; [split; [intros _; tauto | eauto]|].
        intros r [= <-]. simpl. repeat constructor.
    + split; [|intros r [=]].
      split; [intros [? ?]; discriminate|].
      intros [?|[?|[?|Hin]]]; try tauto.
      apply Hw in Hin. destruct Hin as [? ?]. discriminate.
Qed.

Lemma win_conditions_plain :
  win_conditions !! "rock" = Some "scissors"
  ∧ win_conditions !! "scissors" = Some "paper"
  ∧ win_conditions !! "paper" = Some "rock".
Proof. repeat split; vm_compute; reflexivity. Qed.

(** X3: the resolver does not check its arguments, and outside the valid
    moves the two sides are not treated alike.  Against rock, scissors or
    paper played by the user, a bot move that is no valid move wins the
    round; with the sides exchanged, the same pair raises [KeyError]. *)
Theorem resolve_round_unknown_move (known unknown : string) :
  known ∈ plain_moves → unknown ∉ VALID_MOVES →
  resolve_round known unknown
  = Some {| winner := "bot";
            reason := PyStr.capitalize unknown +:+ " beats " +:+ known |}
  ∧ resolve_round unknown known = None.
Proof.
  intros Hk Hu.
  assert (unknown ≠ "rock" ∧ unknown ≠ "paper" ∧ unknown ≠ "scissors"
          ∧ unknown ≠ "bomb") as (Hr & Hp & Hs & Hb).
  { unfold VALID_MOVES in Hu. rewrite !not_elem_of_cons in Hu. tauto. }
  assert (win_conditions !! unknown = None) as Hnone.
  { apply eq_None_not_Some. rewrite win_conditions_lookup.
    unfold plain_moves. rewrite !elem_of_cons, elem_of_nil. tauto. }
  destruct win_conditions_plain as (Wr & Ws & Wp).
  assert (known ≠ "bomb") as Hkb.
  { intros ->. unfold plain_moves in Hk.
    rewrite !elem_of_cons, elem_of_nil in Hk.
    destruct Hk as [?|[?|[?|[]]]]; discriminate. }
  assert (known ≠ unknown) as Hne.
  { intros <-. unfold plain_moves in Hk.
    rewrite !elem_of_cons, elem_of_nil in Hk. tauto. }
  assert (∃ beaten, win_conditions !! known = Some beaten ∧ beaten ≠ unknown)
    as (beaten & Hbeaten & Hbu).
  { unfold plain_moves in Hk. rewrite !elem_of_cons, elem_of_nil in Hk.
    destruct Hk as [->|[->|[->|[]]]]; eexists; (split; [eassumption|]);
      intros E; symmetry in E; contradiction. }
  split; unfold resolve_round.
  - rewrite decide_False by (intros [? _]; contradiction).
    rewrite (decide_False (P := known = "bomb")) by exact Hkb.
    rewrite (decide_False (P := unknown = "bomb")) by exact Hb.
    rewrite (decide_False (P := known = unknown)) by exact Hne.
    rewrite Hbeaten. cbn [mbind option_bind].
    rewrite (decide_False (P := beaten = unknown)) by exact Hbu.
    reflexivity.
  - rewrite decide_False by (intros [? _]; contradiction).
    rewrite (decide_False (P := unknown = "bomb")) by exact Hb.
    rewrite (decide_False (P := known = "bomb")) by exact Hkb.
    rewrite (decide_False (P := unknown = known))
      by (intros E; symmetry in E; contradiction).
    rewrite Hnone. reflexivity.
Qed.

Lemma paper_plain : "paper" ∈ plain_moves.
Proof. unfold plain_moves. repeat constructor. Defined.

Lemma laser_not_valid : "laser" ∉ VALID_MOVES.
Proof.
  unfold VALID_MOVES. intros H.
  repeat (apply elem_of_cons in H as [H|H]; [discriminate H|]).
  apply elem_of_nil in H. exact H.
Defined.

(** X4: the updater raises only at the score increment: it returns exactly
    when [score] has an entry for the winner it is to credit.  A winner that
    is neither "user" nor "bot" needs no entry. *)
Theorem update_game_state_returns_iff s user_move bot_move round_result :
  is_Some (update_game_state s user_move bot_move round_result) ↔
    (winner round_result = "user" → is_Some (score s !! "user"))
    ∧ (winner round_result = "bot" → is_Some (score s !! "bot")).
Proof.
  unfold update_game_state.
  destruct (decide (winner round_result = "user")) as [Wu|Wu].
  - destruct (score s !! "user") as [n|]; simpl.
    + split; [intros _; split; [eauto | rewrite Wu; discriminate] | eauto].
    + split; [intros [? ?]; discriminate|].
      intros [H _]. destruct (H Wu) as [? ?]. discriminate.
  - destruct (decide (winner round_result = "bot")) as [Wb|Wb].
    + destruct (score s !! "bot") as [n|]; simpl.
      * split; [intros _; split; [tauto | eauto] | eauto].
      * split; [intros [? ?]; discriminate|].
        intros [_ H]. destruct (H Wb) as [? ?]. discriminate.
    + simpl. split; [intros _; tauto | eauto].
Qed.

(** X5: a move that passed validation is in its normal form: the normalized
    move the validator hands out is one of the four valid moves, and
    validating it again on the same state gives the same result. *)
Theorem validate_move_normalized_again move s v n :
  validate_move move s = Some v →
  normalized_move v = Some n →
  n ∈ VALID_MOVES ∧ valid v = true ∧ validate_move n s = Some v.
Proof.
  unfold validate_move. fold (normalize move).
  destruct (decide (normalize move ∉ VALID_MOVES)) as [Hout|Hin];
    [intros [= <-]; discriminate|].
  apply dec_stable in Hin.
  intros Hv Hn.
  assert (Hfix : PyStr.lower (PyStr.strip (normalize move)) = normalize move).
  { destruct (valid_move_cases _ Hin) as [E|[E|[E|E]]]; rewrite E; reflexivity. }
  destruct (decide (normalize move = "bomb")) as [Eb|Eb].
  - destruct (bomb_used s !! "user") as [[|]|] eqn:Hused; simpl in Hv;
      [injection Hv as <-; discriminate | | discriminate].
    injection Hv as <-. simpl in Hn. injection Hn as <-.
    split; [exact Hin|]. split; [reflexivity|].
    rewrite Hfix. rewrite decide_False by (intros H; exact (H Hin)).
    rewrite decide_True by exact Eb. reflexivity.
  - simpl in Hv. injection Hv as <-. simpl in Hn. injection Hn as <-.
    split; [exact Hin|]. split; [reflexivity|].
    rewrite Hfix. rewrite decide_False by (intros H; exact (H Hin)).
    rewrite decide_False by exact Eb. reflexivity.
Qed.

Lemma validate_padded_bomb :
  validate_move " BOMB " initialize_game_state
  = Some {| valid := true; normalized_move := Some "bomb"; error := None |}.
Proof. vm_compute. reflexivity. Defined.

(** X6: the validator raises in one case only: the normalized input is
    "bomb" and [bomb_used] has no entry for the user.  Input that is no valid
    move is rejected without the state being read. *)
Theorem validate_move_raises_iff move s :
  validate_move move s = None ↔
    normalize move = "bomb" ∧ bomb_used s !! "user" = None.
Proof.
  unfold validate_move. fold (normalize move).
  assert (Hbomb : "bomb" ∈ VALID_MOVES) by (unfold VALID_MOVES; repeat constructor).
  destruct (decide (normalize move ∉ VALID_MOVES)) as [Hout|Hin].
  - split; [discriminate|]. intros [E _]. rewrite E in Hout. contradiction.
  - destruct (decide (normalize move = "bomb")) as [Eb|Eb].
    + destruct (bomb_used s !! "user") as [[|]|]; simpl.
      * split; [discriminate | intros [_ ?]; discriminate].
      * split; [discriminate | intros [_ ?]; discriminate].
      * split; [auto | reflexivity].
    + simpl. split; [discriminate | intros [? _]; contradiction].
Qed.

(** * Invariants of runs of the updater *)

Lemma update_all_invariant (P : GameState → Prop) :
  (∀ s user_move bot_move round_result s',
     P s → update_game_state s user_move bot_move round_result = Some s' → P s') →
  ∀ turns s s', P s → update_all s turns = Some s' → P s'.
Proof.
  intros Hstep turns.
  induction turns as [|[[user_move bot_move] round_result] rest IH];
    intros s s' Hs Hrun; simpl in Hrun.
  - congruence.
  - destruct (update_game_state s user_move bot_move round_result) as [s1|] eqn:H1;
      [|discriminate].
    simpl in Hrun. eapply IH; [|eassumption]. eapply Hstep; eassumption.
Qed.

Lemma update_all_initial_returns turns :
  ∃ s, update_all initialize_game_state turns = Some s.
Proof.
  destruct (update_all_after_calls turns 0 _ after_calls_initial) as (s & Hs & _).
  eauto.
Qed.

Lemma update_all_history turns : ∀ s s',
  update_all s turns = Some s' →
  history s' = history s ++ imap (λ i, entry_in_round (round s + Z.of_nat i)) turns.
Proof.
  induction turns as [|[[user_move bot_move] round_result] rest IH];
    intros s s' Hrun; simpl in Hrun.
  - injection Hrun as <-. simpl. rewrite app_nil_r. reflexivity.
  - destruct (update_game_state s user_move bot_move round_result) as [s1|] eqn:H1;
      [|discriminate].
    simpl in Hrun. rewrite (IH _ _ Hrun).
    rewrite (update_history _ _ _ _ _ H1), (update_round _ _ _ _ _ H1).
    rewrite <- app_assoc. f_equal. rewrite imap_cons. simpl. f_equal.
    + unfold entry_of, entry_in_round. simpl. f_equal. lia.
    + apply imap_ext. intros i t _. simpl. f_equal. lia.
Qed.

(** X7: the history is the log of the calls.  After any run of calls from
    the initial state it holds one entry per call, in call order, the i-th
    (from 0) numbered round i + 1 and carrying that call's bot move, winner
    and reason, and its user move or "INVALID" where none was passed. *)
Theorem update_all_history_log (turns : list Turn) :
  ∃ s, update_all initialize_game_state turns = Some s
       ∧ history s = imap (λ i, entry_in_round (Z.of_nat i + 1)) turns.
Proof.
  destruct (update_all_initial_returns turns) as [s Hs].
  exists s. split; [exact Hs|].
  rewrite (update_all_history _ _ _ Hs). simpl.
  apply imap_ext. intros i t _. simpl. f_equal. lia.
Qed.

Lemma wins_snoc who h e :
  wins who (h ++ [e]) = wins who h + (if decide (rec_winner e = who) then 1 else 0).
Proof.
  unfold wins. rewrite filter_app, length_app.
  rewrite filter_cons, filter_nil. case_decide; simpl; lia.
Qed.

(** X8: the scores count the rounds won.  After any run of calls from the
    initial state, each side's score is the number of history entries that
    name it as winner; so the two scores together never exceed the number
    of calls. *)
Theorem update_all_scores_count_wins (turns : list Turn) :
  ∃ s, update_all initialize_game_state turns = Some s
       ∧ score s !! "user" = Some (wins "user" (history s))
       ∧ score s !! "bot" = Some (wins "bot" (history s))
       ∧ (wins "user" (history s) + wins "bot" (history s)
          ≤ Z.of_nat (length turns))%Z.
Proof.
  destruct (update_all_initial_returns turns) as [s Hs].
  exists s. split; [exact Hs|].
  assert (score s !! "user" = Some (wins "user" (history s))
          ∧ score s !! "bot" = Some (wins "bot" (history s))) as [Hu Hb].
  { revert Hs.
    apply (update_all_invariant
             (λ s, score s !! "user" = Some (wins "user" (history s))
                   ∧ score s !! "bot" = Some (wins "bot" (history s))));
      [|split; reflexivity].
    clear. intros s user_move bot_move round_result s' [Hu Hb] Hcall.
    rewrite (update_history _ _ _ _ _ Hcall), !wins_snoc.
    unfold entry_of. cbn [rec_winner].
    destruct (decide (winner round_result = "user")) as [Wu|Wu].
    - destruct (update_score_user _ _ _ _ _ Hcall Wu) as (n & Hn & ->).
      rewrite lookup_insert_eq, lookup_insert_ne by done.
      rewrite decide_False by (rewrite Wu; discriminate).
      split; [congruence | rewrite Hb; f_equal; lia].
    - destruct (decide (winner round_result = "bot")) as [Wb|Wb].
      + destruct (update_score_bot _ _ _ _ _ Hcall Wb) as (n & Hn & ->).
        rewrite lookup_insert_eq, lookup_insert_ne by done.
        split; [rewrite Hu; f_equal; lia | congruence].
      + rewrite (update_score_other _ _ _ _ _ Hcall Wu Wb).
        split; [rewrite Hu | rewrite Hb]; f_equal; lia. }
  split; [exact Hu|]. split; [exact Hb|].
  destruct (update_all_after_calls turns 0 _ after_calls_initial)
    as (s0 & Hs0 & [_ Hlen _ _ _]).
  assert (s0 = s) as -> by congruence. simpl in Hlen. rewrite <- Hlen.
  unfold wins. clear.
  induction (history s) as [|e h IH]; [simpl; lia|].
  rewrite !filter_cons. simpl length.
  destruct (decide (rec_winner e = "user")) as [E|E];
    destruct (decide (rec_winner e = "bot")) as [E'|E']; simpl length; try lia.
  rewrite E in E'. discriminate.
Qed.

(** X9: the bomb flags say what the history says.  After any run of calls
    from the initial state, the user's flag is true exactly when some
    history entry has "bomb" as the user's move, and the bot's flag exactly
    when some entry has "bomb" as the bot's move. *)
Theorem update_all_bomb_flags_history (turns : list Turn) :
  ∃ s, update_all initialize_game_state turns = Some s
       ∧ bomb_used s !! "user"
         = Some (bool_decide (Exists (λ r, rec_user_move r = "bomb") (history s)))
       ∧ bomb_used s !! "bot"
         = Some (bool_decide (Exists (λ r, rec_bot_move r = "bomb") (history s))).
Proof.
  destruct (update_all_initial_returns turns) as [s Hs].
  exists s. split; [exact Hs|].
  change (bomb_flags_match_history s). revert Hs.
  apply (update_all_invariant bomb_flags_match_history).
  - clear. intros s user_move bot_move round_result s' [Hu Hb] Hcall.
    unfold bomb_flags_match_history.
    rewrite (update_history _ _ _ _ _ Hcall), (update_bomb_used _ _ _ _ _ Hcall).
    assert (∀ (P : RoundRecord → Prop) `{!∀ r, Decision (P r)} h e,
              bool_decide (Exists P (h ++ [e]))
              = bool_decide (Exists P h) || bool_decide (P e)) as Hsnoc.
    { intros P ? h e. apply eq_true_iff_eq.
      rewrite orb_true_iff, !bool_decide_eq_true, Exists_app, Exists_cons,
        Exists_nil. tauto. }
    rewrite !Hsnoc. unfold entry_of. cbn [rec_user_move rec_bot_move].
    split.
    + destruct (decide (bot_move = "bomb")); cbn [id];
        [rewrite lookup_insert_ne by done|];
        (destruct (decide (user_move = Some "bomb")) as [->|Hn]; cbn [id];
         [rewrite lookup_insert_eq; cbn [default];
          rewrite (bool_decide_eq_true_2 ("bomb" = "bomb")) by reflexivity;
          rewrite orb_true_r; reflexivity
         |rewrite Hu; f_equal;
          rewrite (bool_decide_eq_false_2 (default "INVALID" user_move = "bomb"));
          [rewrite orb_false_r; reflexivity
          |destruct user_move; cbn [default];
           [intros E; apply Hn; f_equal; exact E | discriminate]]]).
    + destruct (decide (bot_move = "bomb")) as [->|Hn]; cbn [id].
      * rewrite lookup_insert_eq.
        rewrite (bool_decide_eq_true_2 ("bomb" = "bomb")) by reflexivity.
        rewrite orb_true_r. reflexivity.
      * rewrite (bool_decide_eq_false_2 (bot_move = "bomb")) by exact Hn.
        rewrite orb_false_r.
        destruct (decide (user_move = Some "bomb")); cbn [id];
          [rewrite lookup_insert_ne by done|]; exact Hb.
  - split; reflexivity.
Qed.

(** * Further properties of the referee *)

(** X10: with an entry for the bot in [bomb_used], [generate_bot_move]
    returns one of the four valid moves, changes neither the agent nor the
    tool log, and returns "bomb" only while the bot's flag is false. *)
Theorem generate_bot_move_legal self rnd log :
  is_Some (bomb_used (game_state self) !! "bot") →
  ∃ m, run (generate_bot_move rnd) self log = (Some m, self, log)
       ∧ m ∈ VALID_MOVES
       ∧ (m = "bomb" → bomb_used (game_state self) !! "bot" = Some false).
Proof.
  intros Hflag.
  destruct (bot_move_drawn_some self rnd Hflag) as (m & Hm & Hin).
  exists m. rewrite generate_bot_move_run, Hm.
  split; [reflexivity|]. split; [exact Hin|].
  intros ->. exact (bot_move_drawn_bomb self rnd Hm).
Qed.

(** X11: the bot's choice is not narrowed any further: every valid move
    other than a bomb already used is drawn for some number, and without an
    entry for the bot in [bomb_used] the method raises for every number. *)
Theorem generate_bot_move_complete self (m : string) :
  m ∈ VALID_MOVES →
  (is_Some (bomb_used (game_state self) !! "bot")
   ∧ (m = "bomb" → bomb_used (game_state self) !! "bot" = Some false) ↔
   ∃ rnd, bot_move_drawn self rnd = Some m).
Proof.
  intros Hm. split.
  - intros [[used Hused] Hbomb].
    unfold bot_move_drawn, generate_bot_move.
    apply valid_move_cases in Hm.
    destruct used.
    + assert (m ≠ "bomb") as Hnb
        by (intros E; specialize (Hbomb E); congruence).
      destruct Hm as [->|[->|[->|E]]]; [exists 0%nat | exists 1%nat | exists 2%nat | done];
        rewrite !run_bind; cbn [run get_self eval]; rewrite Hused;
        rewrite run_bind; cbn [run eval]; reflexivity.
    + destruct Hm as [->|[->|[->| ->]]];
        [exists 0%nat | exists 1%nat | exists 2%nat | exists 3%nat];
        rewrite !run_bind; cbn [run get_self eval]; rewrite Hused;
        rewrite run_bind; cbn [run eval]; reflexivity.
  - intros [rnd Hrnd]. split.
    + revert Hrnd. unfold bot_move_drawn, generate_bot_move.
      rewrite !run_bind. cbn [run get_self eval].
      destruct (bomb_used (game_state self) !! "bot"); [eauto | discriminate].
    + intros ->. exact (bot_move_drawn_bomb self rnd Hrnd).
Qed.

Lemma resolve_round_valid_returns (user_move bot_move : string) :
  user_move ∈ VALID_MOVES → bot_move ∈ VALID_MOVES →
  is_Some (resolve_round user_move bot_move).
Proof.
  intros Hu Hb.
  apply valid_move_cases in Hu. apply valid_move_cases in Hb.
  destruct Hu as [->|[->|[->| ->]]]; destruct Hb as [->|[->|[->| ->]]];
    eexists; vm_compute; reflexivity.
Qed.

(** What validation hands to the rest of the turn. *)
Lemma validate_move_returns move s :
  is_Some (bomb_used s !! "user") →
  ∃ v, validate_move move s = Some v
       ∧ (∀ n, move_of v = Some n →
               n = normalize move ∧ n ∈ VALID_MOVES
               ∧ (n = "bomb" → bomb_used s !! "user" = Some false)).
Proof.
  intros [used Hused]. unfold validate_move. fold (normalize move).
  destruct (decide (normalize move ∉ VALID_MOVES)) as [Hout|Hin].
  - eexists. split; [reflexivity|]. intros n [=].
  - apply dec_stable in Hin.
    destruct (decide (normalize move = "bomb")) as [Eb|Eb].
    + rewrite Hused. destruct used; simpl.
      * eexists. split; [reflexivity|]. intros n [=].
      * eexists. split; [reflexivity|]. intros n [= <-]. auto.
    + simpl. eexists. split; [reflexivity|]. intros n [= <-].
      split; [reflexivity|]. split; [exact Hin|]. intros E. contradiction.
Qed.

(** One turn, tool by tool: the result of [process_turn] from what each tool
    returned. *)
Lemma process_turn_run self user_input rnd log v bot_move round_result s' :
  game_started self = true →
  game_over (game_state self) = false →
  validate_move user_input (game_state self) = Some v →
  bot_move_drawn self rnd = Some bot_move →
  match move_of v with
  | None => round_result = invalid_input_result
  | Some m => resolve_round m bot_move = Some round_result
  end →
  update_game_state (game_state self) (move_of v) bot_move round_result = Some s' →
  has_players (score s') →
  ∃ resp,
    run (process_turn user_input rnd) self log
    = (Some resp, {| game_state := s'; game_started := true |},
       log ++ tools_for v).
Proof.
  intros Hs Ho Hv Hb Hr Hu Hp.
  unfold process_turn. rewrite run_bind. cbn [run get_self].
  rewrite Hs, Ho. cbn [negb].
  rewrite run_bind. cbn [run call]. rewrite Hv.
  fold (move_of v). unfold tools_for.
  rewrite run_bind, generate_bot_move_run, Hb.
  rewrite run_bind.
  destruct (move_of v) as [m|].
  - cbn [run call]. rewrite Hr.
    rewrite run_bind. cbn [run call]. rewrite Hu.
    rewrite run_bind. cbn [run assign_game_state]. rewrite Hs.
    rewrite run_bind.
    edestruct (format_round_response_returns
                 {| game_state := s'; game_started := true |}) as [text Htext];
      [exact Hp|].
    rewrite Htext. cbn [run mret Method_ret].
    rewrite <- !app_assoc. eexists. reflexivity.
  - cbn [run mret Method_ret]. subst round_result.
    rewrite run_bind. cbn [run call]. unfold invalid_input_result in Hu.
    rewrite Hu.
    rewrite run_bind. cbn [run assign_game_state]. rewrite Hs.
    rewrite run_bind.
    edestruct (format_round_response_returns
                 {| game_state := s'; game_started := true |}) as [text Htext];
      [exact Hp|].
    rewrite Htext. cbn [run mret Method_ret].
    rewrite <- !app_assoc. eexists. reflexivity.
Qed.

Lemma update_keeps_bomb_players s s' user_move bot_move round_result :
  update_game_state s user_move bot_move round_result = Some s' →
  has_players (bomb_used s) → has_players (bomb_used s').
Proof.
  intros Hcall [Hu Hb]. rewrite (update_bomb_used _ _ _ _ _ Hcall).
  split; repeat case_decide; cbn [id];
    repeat (rewrite lookup_insert; case_decide); eauto.
Qed.

(** One accepted turn on a well-formed agent: no tool raises, and the new
    state is the updater's result on the outcome of the round. *)
Lemma process_turn_step self user_input rnd log :
  agent_ok self →
  game_over (game_state self) = false →
  ∃ resp v bot_move round_result s',
    run (process_turn user_input rnd) self log
    = (Some resp, {| game_state := s'; game_started := true |},
       log ++ tools_for v)
    ∧ validate_move user_input (game_state self) = Some v
    ∧ (∀ n, move_of v = Some n →
            n = normalize user_input ∧ n ∈ VALID_MOVES
            ∧ (n = "bomb" → bomb_used (game_state self) !! "user" = Some false))
    ∧ bot_move_drawn self rnd = Some bot_move
    ∧ bot_move ∈ VALID_MOVES
    ∧ match move_of v with
      | None => round_result = invalid_input_result
      | Some m => resolve_round m bot_move = Some round_result
      end
    ∧ update_game_state (game_state self) (move_of v) bot_move round_result
      = Some s'
    ∧ agent_ok {| game_state := s'; game_started := true |}.
Proof.
  intros (Hs & Hp & Hbu & Hbb) Ho.
  destruct (validate_move_returns user_input (game_state self) Hbu)
    as (v & Hv & Hmove).
  destruct (bot_move_drawn_some self rnd Hbb) as (bot_move & Hb & Hbin).
  assert (∃ round_result,
            match move_of v with
            | None => round_result = invalid_input_result
            | Some m => resolve_round m bot_move = Some round_result
            end) as [round_result Hr].
  { destruct (move_of v) as [m|] eqn:Hm; [|eauto].
    destruct (Hmove m eq_refl) as (_ & Hin & _).
    destruct (resolve_round_valid_returns m bot_move Hin Hbin) as [r Hr]. eauto. }
  destruct (update_returns (game_state self) (move_of v) bot_move round_result Hp)
    as [s' Hcall].
  pose proof (update_keeps_players _ _ _ _ _ Hcall Hp) as Hp'.
  pose proof (update_keeps_bomb_players _ _ _ _ _ Hcall (conj Hbu Hbb)) as Hb'.
  destruct (process_turn_run self user_input rnd log v bot_move round_result s'
              Hs Ho Hv Hb Hr Hcall Hp') as [resp Hrun].
  exists resp, v, bot_move, round_result, s'.
  repeat (split; [assumption|]). split; [reflexivity|]. split; assumption.
Qed.

(** X12: a turn with valid input.  On a well-formed agent whose game is not
    over, when validation accepts the input, [process_turn] invokes the
    three tools in order and none raises; the agent's new state is what
    [update_game_state] makes of the normalized move, the move drawn for the
    bot, and the outcome [resolve_round] gives for the two. *)
Theorem process_turn_valid_input self user_input rnd log v :
  agent_ok self →
  game_over (game_state self) = false →
  validate_move user_input (game_state self) = Some v →
  valid v = true →
  ∃ resp self' bot_move round_result,
    run (process_turn user_input rnd) self log
    = (Some resp, self', log ++ [ValidateMove; ResolveRound; UpdateGameState])
    ∧ v = {| valid := true; normalized_move := Some (normalize user_input);
             error := None |}
    ∧ bot_move_drawn self rnd = Some bot_move
    ∧ resolve_round (normalize user_input) bot_move = Some round_result
    ∧ update_game_state (game_state self) (Some (normalize user_input))
        bot_move round_result = Some (game_state self')
    ∧ game_started self' = true.
Proof.
  intros Hok Ho Hv Hvalid.
  destruct (process_turn_step self user_input rnd log Hok Ho)
    as (resp & v' & bot_move & round_result & s' & Hrun & Hv' & Hmove & Hb
        & _ & Hr & Hcall & _).
  assert (v' = v) as -> by congruence.
  assert (v = {| valid := true; normalized_move := Some (normalize user_input);
                 error := None |}) as Hshape.
  { revert Hv Hvalid. unfold validate_move. fold (normalize user_input).
    case_decide; [intros [= <-]; discriminate|].
    destruct (if decide (normalize user_input = "bomb")
              then bomb_used (game_state self) !! "user" else Some false)
      as [[|]|]; simpl; [intros [= <-]; discriminate | | discriminate].
    intros [= <-] _. reflexivity. }
  assert (move_of v = Some (normalize user_input)) as Hm
    by (rewrite Hshape; reflexivity).
  unfold tools_for in Hrun. rewrite Hm in Hrun, Hr, Hcall.
  exists resp, {| game_state := s'; game_started := true |}, bot_move, round_result.
  cbn [game_state game_started]. auto 10.
Qed.

Lemma agent_started_ok : agent_ok agent_started.
Proof.
  split; [reflexivity|].
  split; split; eexists; reflexivity.
Defined.

Lemma validate_rock :
  validate_move "rock" (game_state agent_started)
  = Some {| valid := true; normalized_move := Some "rock"; error := None |}.
Proof. vm_compute. reflexivity. Defined.

(** X13: every accepted turn costs a round, whatever was typed.  On a
    well-formed agent whose game is not over, [process_turn] returns for
    every input and every draw; the round counter goes up by one, the
    history grows by one entry, and the game is over afterwards exactly when
    the new round exceeds [max_rounds]. *)
Theorem process_turn_consumes_round self user_input rnd log :
  agent_ok self →
  game_over (game_state self) = false →
  ∃ resp self' calls,
    run (process_turn user_input rnd) self log = (Some resp, self', log ++ calls)
    ∧ agent_ok self'
    ∧ round (game_state self') = round (game_state self) + 1
    ∧ max_rounds (game_state self') = max_rounds (game_state self)
    ∧ length (history (game_state self')) = S (length (history (game_state self)))
    ∧ (game_over (game_state self') = true ↔
       round (game_state self) + 1 > max_rounds (game_state self)).
Proof.
  intros Hok Ho.
  destruct (process_turn_step self user_input rnd log Hok Ho)
    as (resp & v & bot_move & round_result & s' & Hrun & _ & _ & _ & _ & _
        & Hcall & Hok').
  exists resp, {| game_state := s'; game_started := true |}, (tools_for v).
  cbn [game_state].
  split; [exact Hrun|]. split; [exact Hok'|].
  split; [exact (update_round _ _ _ _ _ Hcall)|].
  split; [exact (update_max_rounds _ _ _ _ _ Hcall)|].
  split.
  - rewrite (update_history _ _ _ _ _ Hcall), length_app. simpl. lia.
  - rewrite (update_game_over _ _ _ _ _ Hcall), Ho. simpl.
    apply bool_decide_eq_true.
Qed.

Lemma process_turn_over self user_input rnd log :
  game_started self = true →
  game_over (game_state self) = true →
  run (process_turn user_input rnd) self log
  = (Some "🚫 The game is already over. Please start a new game.", self, log).
Proof.
  intros Hs Ho. unfold process_turn. rewrite run_bind. cbn [run get_self].
  rewrite Hs, Ho. reflexivity.
Qed.

Lemma process_turns_over turns : ∀ self log,
  game_started self = true →
  game_over (game_state self) = true →
  run (process_turns turns) self log = (Some tt, self, log).
Proof.
  induction turns as [|[user_input rnd] rest IH]; intros self log Hs Ho.
  - reflexivity.
  - cbn [process_turns]. rewrite run_bind, (process_turn_over _ _ _ _ Hs Ho).
    apply IH; assumption.
Qed.

Lemma process_turns_app l1 l2 self log :
  run (process_turns (l1 ++ l2)) self log =
    match run (process_turns l1) self log with
    | (Some _, self', log') => run (process_turns l2) self' log'
    | (None, self', log') => (None, self', log')
    end.
Proof.
  revert self log. induction l1 as [|[user_input rnd] rest IH]; intros self log.
  - reflexivity.
  - cbn [app process_turns]. rewrite !run_bind.
    destruct (run (process_turn user_input rnd) self log) as [[[resp|] a] lg];
      [apply IH | reflexivity].
Qed.

Lemma rounds_played_step n self user_input rnd log :
  agent_ok self → rounds_played n self → (n < 3)%nat →
  ∃ resp self' log',
    run (process_turn user_input rnd) self log = (Some resp, self', log')
    ∧ agent_ok self' ∧ rounds_played (S n) self'.
Proof.
  intros Hok (Hn & Hr & Hh & Hm & Hg) Hlt.
  assert (game_over (game_state self) = false) as Ho.
  { destruct (game_over (game_state self)); [|reflexivity].
    destruct Hg as [Hg _]. specialize (Hg eq_refl). lia. }
  destruct (process_turn_step self user_input rnd log Hok Ho)
    as (resp & v & bot_move & round_result & s' & Hrun & _ & _ & _ & _ & _
        & Hcall & Hok').
  exists resp, {| game_state := s'; game_started := true |}, (log ++ tools_for v).
  split; [exact Hrun|]. split; [exact Hok'|].
  unfold rounds_played. cbn [game_state].
  rewrite (update_round _ _ _ _ _ Hcall), (update_max_rounds _ _ _ _ _ Hcall),
          (update_history _ _ _ _ _ Hcall), (update_game_over _ _ _ _ _ Hcall),
          length_app, Ho, Hr, Hm, Hh.
  simpl. rewrite bool_decide_eq_true.
  repeat split; lia.
Qed.

Lemma process_turns_rounds turns : ∀ n self log,
  agent_ok self → rounds_played n self →
  ∃ self' log',
    run (process_turns turns) self log = (Some tt, self', log')
    ∧ agent_ok self'
    ∧ rounds_played (Nat.min 3 (n + length turns)) self'.
Proof.
  induction turns as [|[user_input rnd] rest IH]; intros n self log Hok Hn.
  - exists self, log. split; [reflexivity|]. split; [exact Hok|].
    pose proof Hn as (Hle & _).
    replace (Nat.min 3 (n + length (@nil (string * nat)))) with n
      by (simpl length; lia).
    exact Hn.
  - destruct (decide (n < 3)%nat) as [Hlt|Hge].
    + destruct (rounds_played_step n self user_input rnd log Hok Hn Hlt)
        as (resp & self1 & log1 & Hrun & Hok1 & Hn1).
      destruct (IH (S n) self1 log1 Hok1 Hn1) as (self' & log' & Hrest & Hok' & Hn').
      exists self', log'. cbn [process_turns]. rewrite run_bind, Hrun.
      split; [exact Hrest|]. split; [exact Hok'|].
      simpl length. replace (n + S (length rest))%nat with (S n + length rest)%nat by lia.
      exact Hn'.
    + pose proof Hn as (Hle & _ & _ & _ & Hg).
      assert (n = 3%nat) as -> by lia.
      exists self, log.
      rewrite process_turns_over;
        [|exact (proj1 Hok) | apply Hg; reflexivity].
      split; [reflexivity|]. split; [exact Hok|].
      rewrite Nat.min_l by lia. exact Hn.
Qed.

Lemma rounds_played_start : rounds_played 0 agent_started.
Proof.
  unfold rounds_played. cbn. repeat split; try reflexivity; try lia; discriminate.
Qed.

Lemma play_unfold turns :
  play turns = run (process_turns turns) agent_started [].
Proof. reflexivity. Qed.

(** X14: a game is three rounds, whatever is typed.  Played from
    [start_game], any sequence of turns runs without an exception; the state
    it ends in has as many rounds played and history entries as there were
    turns, at most three, is over exactly from the third turn on, and is the
    state the first three turns alone lead to: every later turn is turned
    away without effect. *)
Theorem play_three_rounds (turns : list (string * nat)) :
  (play turns).1.1 = Some tt
  ∧ game_started (agent_after turns) = true
  ∧ round (game_state (agent_after turns))
    = 1 + Z.of_nat (Nat.min 3 (length turns))
  ∧ length (history (game_state (agent_after turns))) = Nat.min 3 (length turns)
  ∧ (game_over (game_state (agent_after turns)) = true ↔ (3 ≤ length turns)%nat)
  ∧ play turns = play (take 3 turns).
Proof.
  unfold agent_after. rewrite !play_unfold.
  destruct (process_turns_rounds turns 0 agent_started []
              agent_started_ok rounds_played_start)
    as (a & lg & Hrun & Hok & (Hle & Hr & Hh & Hm & Hg)).
  rewrite Hrun. cbn [fst snd]. simpl plus in *.
  split; [reflexivity|]. split; [exact (proj1 Hok)|].
  split; [exact Hr|]. split; [exact Hh|].
  split; [rewrite Hg; lia|].
  rewrite <- Hrun. rewrite <- (take_drop 3 turns) at 1.
  rewrite process_turns_app.
  destruct (process_turns_rounds (take 3 turns) 0 agent_started []
              agent_started_ok rounds_played_start)
    as (a3 & lg3 & Hrun3 & Hok3 & (Hle3 & _ & _ & _ & Hg3)).
  rewrite Hrun3. simpl plus in *.
  destruct (decide (3 ≤ length turns)%nat) as [Hlong|Hshort].
  - apply process_turns_over; [exact (proj1 Hok3)|].
    apply Hg3. rewrite length_take. lia.
  - rewrite drop_ge by lia. reflexivity.
Qed.

Lemma user_bombs_snoc h e :
  user_bombs (h ++ [e])
  = (user_bombs h + (if decide (rec_user_move e = "bomb") then 1 else 0))%nat.
Proof.
  unfold user_bombs. rewrite filter_app, length_app, filter_cons, filter_nil.
  case_decide; reflexivity.
Qed.

Lemma bot_bombs_snoc h e :
  bot_bombs (h ++ [e])
  = (bot_bombs h + (if decide (rec_bot_move e = "bomb") then 1 else 0))%nat.
Proof.
  unfold bot_bombs. rewrite filter_app, length_app, filter_cons, filter_nil.
  case_decide; reflexivity.
Qed.

Lemma bomb_once_step self user_input rnd log :
  bomb_once self →
  ∃ resp self' log',
    run (process_turn user_input rnd) self log = (Some resp, self', log')
    ∧ bomb_once self'.
Proof.
  intros (Hok & Hu0 & Hu1 & Hb0 & Hb1).
  destruct (game_over (game_state self)) eqn:Ho.
  { eexists _, self, log. rewrite (process_turn_over _ _ _ _ (proj1 Hok) Ho).
    split; [reflexivity|]. repeat split; assumption || apply Hok. }
  destruct (process_turn_step self user_input rnd log Hok Ho)
    as (resp & v & bot_move & round_result & s' & Hrun & _ & Hmove & Hb & _ & _
        & Hcall & Hok').
  exists resp, {| game_state := s'; game_started := true |}, (log ++ tools_for v).
  split; [exact Hrun|]. split; [exact Hok'|]. cbn [game_state].
  rewrite (update_history _ _ _ _ _ Hcall), (update_bomb_used _ _ _ _ _ Hcall).
  rewrite user_bombs_snoc, bot_bombs_snoc. unfold entry_of.
  cbn [rec_user_move rec_bot_move].
  assert (move_of v = Some "bomb" →
          bomb_used (game_state self) !! "user" = Some false) as Hub.
  { intros E. destruct (Hmove _ E) as (_ & _ & H). exact (H eq_refl). }
  assert (bot_move = "bomb" →
          bomb_used (game_state self) !! "bot" = Some false) as Hbb.
  { intros ->. exact (bot_move_drawn_bomb self rnd Hb). }
  assert (default "INVALID" (move_of v) = "bomb" ↔ move_of v = Some "bomb") as Hd.
  { destruct (move_of v) as [m|]; simpl;
      [split; [intros ->; reflexivity | intros [= ->]; reflexivity]
      |split; discriminate]. }
  split; [|split; [|split]].
  - destruct (decide (move_of v = Some "bomb")) as [E|E].
    + destruct (decide (bot_move = "bomb")); cbn [id];
        rewrite ?(lookup_insert_ne _ "bot" "user") by done;
        rewrite lookup_insert_eq; discriminate.
    + rewrite (decide_False (P := default "INVALID" (move_of v) = "bomb"))
        by (rewrite Hd; exact E).
      destruct (decide (bot_move = "bomb")); cbn [id];
        rewrite ?(lookup_insert_ne _ "bot" "user") by done;
        intros H; rewrite (Hu0 H); reflexivity.
  - destruct (decide (move_of v = Some "bomb")) as [E|E].
    + rewrite (decide_True (P := default "INVALID" (move_of v) = "bomb"))
        by (rewrite Hd; exact E).
      rewrite (Hu0 (Hub E)). lia.
    + rewrite (decide_False (P := default "INVALID" (move_of v) = "bomb"))
        by (rewrite Hd; exact E). lia.
  - destruct (decide (bot_move = "bomb")) as [E|E]; cbn [id].
    + rewrite lookup_insert_eq. discriminate.
    + destruct (decide (move_of v = Some "bomb")); cbn [id];
        rewrite ?(lookup_insert_ne _ "user" "bot") by done;
        intros H; rewrite (Hb0 H); lia.
  - destruct (decide (bot_move = "bomb")) as [E|E].
    + rewrite (Hb0 (Hbb E)). lia.
    + lia.
Qed.

Lemma bomb_once_turns turns : ∀ self log,
  bomb_once self →
  ∃ self' log',
    run (process_turns turns) self log = (Some tt, self', log')
    ∧ bomb_once self'.
Proof.
  induction turns as [|[user_input rnd] rest IH]; intros self log Hinv.
  - exists self, log. split; [reflexivity | exact Hinv].
  - destruct (bomb_once_step self user_input rnd log Hinv)
      as (resp & self1 & log1 & Hrun & Hinv1).
    destruct (IH self1 log1 Hinv1) as (self' & log' & Hrest & Hinv').
    exists self', log'. cbn [process_turns]. rewrite run_bind, Hrun.
    split; assumption.
Qed.

(** X15: the bomb is played at most once per side.  In the history of any
    game played from [start_game], whatever the inputs and the draws, at
    most one entry has "bomb" as the user's move and at most one has "bomb"
    as the bot's move. *)
Theorem play_bomb_at_most_once (turns : list (string * nat)) :
  (user_bombs (history (game_state (agent_after turns))) ≤ 1)%nat
  ∧ (bot_bombs (history (game_state (agent_after turns))) ≤ 1)%nat.
Proof.
  unfold agent_after. rewrite play_unfold.
  destruct (bomb_once_turns turns agent_started []) as (a & lg & Hrun & Hinv).
  { split; [exact agent_started_ok|]. cbn. repeat split; lia. }
  rewrite Hrun. cbn [fst snd].
  destruct Hinv as (_ & _ & Hu & _ & Hb). split; assumption.
Qed.

(** * Further properties of the store layer *)

Lemma update_game_state_none_iff s user_move bot_move round_result :
  update_game_state s user_move bot_move round_result = None ↔
    (winner round_result = "user" ∧ score s !! "user" = None)
    ∨ (winner round_result = "bot" ∧ score s !! "bot" = None).
Proof.
  unfold update_game_state.
  destruct (decide (winner round_result = "user")) as [Wu|Wu].
  - destruct (score s !! "user") as [n|]; simpl.
    + split; [discriminate|]. intros [[_ ?]|[Wb _]]; [discriminate|].
      rewrite Wu in Wb. discriminate.
    + split; [auto | reflexivity].
  - destruct (decide (winner round_result = "bot")) as [Wb|Wb].
    + destruct (score s !! "bot") as [n|]; simpl.
      * split; [discriminate|]. intros [[? _]|[_ ?]]; [contradiction | discriminate].
      * split; [auto | reflexivity].
    + simpl. split; [discriminate|]. intros [[? _]|[? _]]; contradiction.
Qed.

(** X16: the updater is safe under its exception.  Called on a reference to
    a state object, whether the call returns or raises, the store before the
    call is a prefix of the store after it, so no object that existed is
    written, and the state passed in still loads the same value.  The call
    raises [KeyError] exactly when [score] has no entry for the winner it is
    to credit, and returns otherwise. *)
Theorem store_update_exception_safe h l s user_move bot_move round_result :
  Store.load h l = Some s →
  h `prefix_of`
    (Store.exec (Store.update_game_state l user_move bot_move round_result) h).2
  ∧ Store.load
      (Store.exec (Store.update_game_state l user_move bot_move round_result) h).2
      l = Some s
  ∧ ((Store.exec (Store.update_game_state l user_move bot_move round_result) h).1
     = Store.Raise Store.KeyError ↔
     (winner round_result = "user" ∧ score s !! "user" = None)
     ∨ (winner round_result = "bot" ∧ score s !! "bot" = None))
  ∧ ((∃ l', (Store.exec
               (Store.update_game_state l user_move bot_move round_result) h).1
            = Store.Ok l') ↔
     ¬ ((winner round_result = "user" ∧ score s !! "user" = None)
        ∨ (winner round_result = "bot" ∧ score s !! "bot" = None))).
Proof.
  intros Hload.
  rewrite update_game_state_exec, Hload.
  rewrite <- (update_game_state_none_iff s user_move bot_move round_result).
  destruct (update_game_state s user_move bot_move round_result) as [s'|] eqn:Hcall;
    cbn [fst snd].
  - split; [apply prefix_app_r; reflexivity|].
    split; [apply load_app; exact Hload|].
    split; [split; discriminate|].
    split; [intros _ ?; discriminate | intros _; eexists; reflexivity].
  - split; [apply prefix_app_r; reflexivity|].
    split; [apply load_app; exact Hload|].
    split; [split; reflexivity|].
    split; [intros [l' ?]; discriminate | intros H; contradiction H; reflexivity].
Qed.

Lemma initialize_game_state_exec h :
  Store.exec Store.initialize_game_state h
  = (Store.Ok (length h + 3)%nat,
     h ++ Store.objects_of (length h) initialize_game_state).
Proof.
  unfold Store.initialize_game_state.
  repeat (rewrite exec_bind; cbn [Store.exec Store.alloc]).
  rewrite !length_app. cbn [length].
  rewrite <- !app_assoc, <- !Nat.add_assoc. cbn [app Nat.add].
  reflexivity.
Qed.

(** X17: every new state has dicts and a list of its own.  On any store,
    [initialize_game_state] returns a reference to a new object that loads
    the initial value and writes no object that existed; and of two states
    made one after the other, the score dict, the bomb dict and the history
    list of the second are objects other than those of the first. *)
Theorem initialize_game_state_fresh h :
  ∃ l1 l2 h' st1 st2,
    Store.exec two_fresh_states h = (Store.Ok (l1, l2), h')
    ∧ h `prefix_of` h'
    ∧ h !! l1 = None ∧ h !! l2 = None ∧ l1 ≠ l2
    ∧ Store.load h' l1 = Some initialize_game_state
    ∧ Store.load h' l2 = Some initialize_game_state
    ∧ h' !! l1 = Some (Store.OGameState st1)
    ∧ h' !! l2 = Some (Store.OGameState st2)
    ∧ Store.o_score st1 ≠ Store.o_score st2
    ∧ Store.o_bomb_used st1 ≠ Store.o_bomb_used st2
    ∧ Store.o_history st1 ≠ Store.o_history st2.
Proof.
  unfold two_fresh_states.
  rewrite exec_bind, initialize_game_state_exec.
  rewrite exec_bind, initialize_game_state_exec.
  cbn [Store.exec mret Store.Cmd_ret].
  set (h1 := h ++ Store.objects_of (length h) initialize_game_state).
  assert (length h1 = length h + 4)%nat as Hlen
    by (subst h1; rewrite length_app; reflexivity).
  exists (length h + 3)%nat, (length h1 + 3)%nat,
         (h1 ++ Store.objects_of (length h1) initialize_game_state),
         (Store.state_obj (length h) initialize_game_state),
         (Store.state_obj (length h1) initialize_game_state).
  split; [reflexivity|].
  split; [subst h1; rewrite <- app_assoc; apply prefix_app_r; reflexivity|].
  split; [apply lookup_ge_None_2; lia|].
  split; [apply lookup_ge_None_2; lia|].
  split; [lia|].
  split; [apply load_app; subst h1; apply load_new|].
  split; [apply load_new|].
  split.
  { apply lookup_app_l_Some. subst h1.
    rewrite (lookup_new h _ _ 3 eq_refl). reflexivity. }
  split; [rewrite (lookup_new h1 _ _ 3 eq_refl); reflexivity|].
  cbn [Store.state_obj Store.o_score Store.o_bomb_used Store.o_history].
  repeat split; lia.
Qed.

Lemma store_update_all_exec turns : ∀ h l s s',
  Store.load h l = Some s →
  update_all s turns = Some s' →
  ∃ l' h',
    Store.exec (store_update_all l turns) h = (Store.Ok l', h')
    ∧ Store.load h' l' = Some s'
    ∧ h `prefix_of` h'.
Proof.
  induction turns as [|[[user_move bot_move] round_result] rest IH];
    intros h l s s' Hload Hrun; simpl in Hrun.
  - injection Hrun as <-. exists l, h. repeat split; [assumption | reflexivity].
  - destruct (update_game_state s user_move bot_move round_result) as [s1|] eqn:H1;
      [|discriminate].
    simpl in Hrun. cbn [store_update_all].
    rewrite exec_bind, update_game_state_exec, Hload, H1.
    destruct (IH (h ++ Store.objects_of (length h) s1) (length h + 3)%nat s1 s'
                (load_new h s1) Hrun) as (l' & h' & Hexec & Hload' & Hpre).
    exists l', h'. split; [exact Hexec|]. split; [exact Hload'|].
    etransitivity; [|exact Hpre]. apply prefix_app_r. reflexivity.
Qed.

Lemma load_prefix h h' l s :
  h `prefix_of` h' → Store.load h l = Some s → Store.load h' l = Some s.
Proof. intros [t ->]. apply load_app. Qed.

(** X18: calls chained on references compute what calls chained on values
    compute, and keep the past.  Where a run of value-level calls from the
    value of a state object has a result, the same run of store-level calls
    from its reference returns a reference that loads that result; the store
    has only grown, and the state the run started from still loads its
    value. *)
Theorem store_update_all_keeps_past h l s s' (turns : list Turn) :
  Store.load h l = Some s →
  update_all s turns = Some s' →
  ∃ l' h',
    Store.exec (store_update_all l turns) h = (Store.Ok l', h')
    ∧ Store.load h' l' = Some s'
    ∧ h `prefix_of` h'
    ∧ Store.load h' l = Some s.
Proof.
  intros Hload Hrun.
  destruct (store_update_all_exec turns h l s s' Hload Hrun)
    as (l' & h' & Hexec & Hload' & Hpre).
  exists l', h'. repeat split; try assumption.
  exact (load_prefix _ _ _ _ Hpre Hload).
Qed.

Lemma update_all_draw :
  update_all initialize_game_state
    [(Some "rock", "rock", {| winner := "draw"; reason := "Both played rock" |})]
  = Some state_after_draw.
Proof. vm_compute. reflexivity. Defined.

(** * Properties of the command-line loop *)

Ltac no_tool_error :=
  cbn [app]; rewrite !not_elem_of_cons;
  repeat split; try discriminate; apply not_elem_of_nil.

Section game_loop_cases.
Context (agent : GameRefereeAgent) (log : list Tool) (out : list Output).

Lemma game_loop_over events :
  game_over (game_state agent) = true →
  game_loop events agent log out = (LoopConditionFalse, agent, log, out).
Proof.
  intros Ho. destruct events as [|[]]; cbn [game_loop run get_game_state get_self mbind
    Method_bind mret Method_ret]; rewrite Ho; reflexivity.
Qed.

Hypothesis Hgoing : game_over (game_state agent) = false.

Lemma game_loop_nil :
  game_loop [] agent log out
  = (WaitingForInput, agent, log,
     out ++ [Prompt (PyStr.nl +:+ "> Your move: ")]).
Proof.
  cbn [game_loop run get_game_state get_self mbind Method_bind mret Method_ret].
  rewrite Hgoing. reflexivity.
Qed.

Lemma game_loop_interrupt rest :
  ∃ out', game_loop (KeyboardInterrupt :: rest) agent log out
          = (Break, agent, log, out ++ out')
          ∧ PrintToolError ∉ out'.
Proof.
  cbn [game_loop run get_game_state get_self mbind Method_bind mret Method_ret].
  rewrite Hgoing. rewrite <- app_assoc. eexists. split; [reflexivity|].
  no_tool_error.
Qed.

Lemma game_loop_eof rest :
  ∃ out', game_loop (EOFError :: rest) agent log out
          = game_loop rest agent log (out ++ out')
          ∧ PrintToolError ∉ out'.
Proof.
  cbn [game_loop run get_game_state get_self mbind Method_bind mret Method_ret].
  rewrite Hgoing. rewrite <- app_assoc. eexists. split; [reflexivity|].
  no_tool_error.
Qed.

Lemma game_loop_quit text rnd rest :
  PyStr.lower (PyStr.strip text) ∈ quit_commands →
  ∃ out', game_loop (Line text rnd :: rest) agent log out
          = (Break, agent, log, out ++ out')
          ∧ PrintToolError ∉ out'.
Proof.
  intros Hq.
  cbn [game_loop run get_game_state get_self mbind Method_bind mret Method_ret].
  rewrite Hgoing. cbv zeta. rewrite decide_True by exact Hq.
  rewrite <- app_assoc. eexists. split; [reflexivity|].
  no_tool_error.
Qed.

Lemma game_loop_blank text rnd rest :
  PyStr.lower (PyStr.strip text) ∉ quit_commands →
  PyStr.strip text = "" →
  ∃ out', game_loop (Line text rnd :: rest) agent log out
          = game_loop rest agent log (out ++ out')
          ∧ PrintToolError ∉ out'.
Proof.
  intros Hq He.
  cbn [game_loop run get_game_state get_self mbind Method_bind mret Method_ret].
  rewrite Hgoing. cbv zeta. rewrite decide_False by exact Hq.
  rewrite decide_True by exact He.
  rewrite <- app_assoc. eexists. split; [reflexivity|].
  no_tool_error.
Qed.

Lemma game_loop_turn text rnd rest response agent' log' :
  PyStr.lower (PyStr.strip text) ∉ quit_commands →
  PyStr.strip text ≠ "" →
  run (process_turn (PyStr.strip text) rnd) agent log = (Some response, agent', log') →
  ∃ out', game_loop (Line text rnd :: rest) agent log out
          = game_loop rest agent' log' (out ++ out')
          ∧ PrintToolError ∉ out'.
Proof.
  intros Hq He Hrun.
  cbn [game_loop run get_game_state get_self mbind Method_bind mret Method_ret].
  rewrite Hgoing. cbv zeta. rewrite decide_False by exact Hq.
  rewrite decide_False by exact He. rewrite Hrun.
  rewrite <- app_assoc. eexists. split; [reflexivity|].
  no_tool_error.
Qed.
End game_loop_cases.

Lemma breaks_within_zero events : breaks_within 0 events = false.
Proof. destruct events as [|[]]; reflexivity. Qed.

Lemma game_loop_spec events : ∀ n agent log out,
  agent_ok agent → rounds_played n agent →
  ∃ exit agent' log' out',
    game_loop events agent log out = (exit, agent', log', out ++ out')
    ∧ run (process_turns (typed_moves events)) agent log = (Some tt, agent', log')
    ∧ (exit = LoopConditionFalse ↔ (3 ≤ n + length (typed_moves events))%nat)
    ∧ (exit = Break ↔ breaks_within (3 - n) events = true)
    ∧ exit ≠ Raised
    ∧ PrintToolError ∉ out'.
Proof.
  induction events as [|e rest IH]; intros n agent log out Hok Hn;
    pose proof Hn as (Hle & _ & _ & _ & Hg);
    destruct (game_over (game_state agent)) eqn:Ho.
  - assert (n = 3%nat) as -> by (apply Hg; reflexivity).
    exists LoopConditionFalse, agent, log, [].
    rewrite game_loop_over, app_nil_r by exact Ho.
    repeat split; try done; try (simpl; lia). apply not_elem_of_nil.
  - assert (n < 3)%nat as Hlt.
    { destruct (decide (n = 3%nat)) as [E|E]; [|lia].
      apply Hg in E. discriminate. }
    exists WaitingForInput, agent, log, [Prompt (PyStr.nl +:+ "> Your move: ")].
    rewrite game_loop_nil by exact Ho.
    split; [reflexivity|]. split; [reflexivity|].
    split; [split; [discriminate | simpl; lia]|].
    split; [split; [discriminate|]|].
    { destruct (3 - n)%nat; simpl; discriminate. }
    split; [discriminate | no_tool_error].
  - assert (n = 3%nat) as -> by (apply Hg; reflexivity).
    exists LoopConditionFalse, agent, log, [].
    rewrite game_loop_over, app_nil_r by exact Ho.
    rewrite process_turns_over by (exact (proj1 Hok) || exact Ho).
    split; [reflexivity|]. split; [reflexivity|].
    split; [split; [lia | reflexivity]|].
    split; [split; [discriminate|]|].
    { change (3 - 3)%nat with 0%nat. rewrite breaks_within_zero. discriminate. }
    split; [discriminate | apply not_elem_of_nil].
  - assert (n < 3)%nat as Hlt.
    { destruct (decide (n = 3%nat)) as [E|E]; [|lia].
      apply Hg in E. discriminate. }
    assert (∃ k, (3 - n = S k ∧ 3 - S n = k)%nat) as (k & Hk & Hk')
      by (exists (2 - n)%nat; lia).
    destruct e as [text rnd| |].
    + destruct (decide (PyStr.lower (PyStr.strip text) ∈ quit_commands)) as [Hq|Hq].
      { destruct (game_loop_quit agent log out Ho text rnd rest Hq)
          as (out' & Hloop & Hout).
        exists Break, agent, log, out'.
        cbn [typed_moves]. rewrite decide_True by exact Hq.
        rewrite Hk. cbn [breaks_within]. rewrite decide_True by exact Hq.
        split; [exact Hloop|]. split; [reflexivity|].
        split; [split; [discriminate | simpl; lia]|].
        split; [split; reflexivity|]. split; [discriminate | exact Hout]. }
      destruct (decide (PyStr.strip text = "")) as [He|He].
      { destruct (game_loop_blank agent log out Ho text rnd rest Hq He)
          as (out1 & Hloop & Hout1).
        destruct (IH n agent log (out ++ out1) Hok Hn)
          as (exit & agent' & log' & out2 & Hrest & Hrun & Hlcf & Hbrk & Hr & Hout2).
        exists exit, agent', log', (out1 ++ out2).
        cbn [typed_moves]. rewrite decide_False by exact Hq.
        rewrite decide_True by exact He.
        rewrite Hk. cbn [breaks_within]. rewrite decide_False by exact Hq.
        rewrite decide_True by exact He. rewrite <- Hk.
        rewrite Hloop, Hrest, app_assoc.
        split; [reflexivity|]. split; [exact Hrun|]. split; [exact Hlcf|].
        split; [exact Hbrk|]. split; [exact Hr|].
        rewrite not_elem_of_app. split; assumption. }
      destruct (rounds_played_step n agent (PyStr.strip text) rnd log Hok Hn Hlt)
        as (resp & agent1 & log1 & Hturn & Hok1 & Hn1).
      destruct (game_loop_turn agent log out Ho text rnd rest resp agent1 log1
                  Hq He Hturn) as (out1 & Hloop & Hout1).
      destruct (IH (S n) agent1 log1 (out ++ out1) Hok1 Hn1)
        as (exit & agent' & log' & out2 & Hrest & Hrun & Hlcf & Hbrk & Hr & Hout2).
      exists exit, agent', log', (out1 ++ out2).
      cbn [typed_moves]. rewrite decide_False by exact Hq.
      rewrite decide_False by exact He.
      rewrite Hk. cbn [breaks_within]. rewrite decide_False by exact Hq.
      rewrite decide_False by exact He. rewrite <- Hk'.
      rewrite Hloop, Hrest, app_assoc.
      cbn [process_turns]. rewrite run_bind, Hturn.
      split; [reflexivity|]. split; [exact Hrun|].
      split; [rewrite Hlcf; simpl length; lia|].
      split; [exact Hbrk|]. split; [exact Hr|].
      rewrite not_elem_of_app. split; assumption.
    + destruct (game_loop_interrupt agent log out Ho rest) as (out' & Hloop & Hout).
      exists Break, agent, log, out'.
      rewrite Hk. cbn [typed_moves breaks_within].
      split; [exact Hloop|]. split; [reflexivity|].
      split; [split; [discriminate | simpl; lia]|].
      split; [split; reflexivity|]. split; [discriminate | exact Hout].
    + destruct (game_loop_eof agent log out Ho rest) as (out1 & Hloop & Hout1).
      destruct (IH n agent log (out ++ out1) Hok Hn)
        as (exit & agent' & log' & out2 & Hrest & Hrun & Hlcf & Hbrk & Hr & Hout2).
      exists exit, agent', log', (out1 ++ out2).
      rewrite Hk. cbn [typed_moves breaks_within]. rewrite <- Hk.
      rewrite Hloop, Hrest, app_assoc.
      split; [reflexivity|]. split; [exact Hrun|]. split; [exact Hlcf|].
      split; [exact Hbrk|]. split; [exact Hr|].
      rewrite not_elem_of_app. split; assumption.
Qed.

Lemma main_unfold events :
  main events =
    let '(exit, agent, log, out) :=
      game_loop events agent_started []
        ([ Print (PyStr.repeat_str "=" 60);
           Print "  ROCK-PAPER-SCISSORS-PLUS GAME REFEREE";
           Print "  Powered by Google ADK";
           Print (PyStr.repeat_str "=" 60) ] ++ [Print welcome_message]) in
    match exit with
    | LoopConditionFalse | Break =>
        (exit, agent, log, out ++ [Print (PyStr.nl +:+ PyStr.repeat_str "=" 60)])
    | WaitingForInput | Raised => (exit, agent, log, out)
    end.
Proof. reflexivity. Qed.

(** X19: the loop plays the typed moves and nothing else.  For every
    sequence of console events [main] ends with the agent and the tool log
    that [start_game] followed by [process_turn] on the typed moves gives,
    where the typed moves are the lines read, trimmed, without the empty
    ones, up to the first quit command or interrupt.  So a blank line or the
    end of input costs no round, and a quit command changes nothing.  No
    exception leaves the loop and none out of [process_turn] is ever
    reported. *)
Theorem main_plays_typed_moves (events : list Event) :
  ∃ exit out,
    main events
    = (exit, agent_after (typed_moves events), (play (typed_moves events)).2, out)
    ∧ exit ≠ Raised
    ∧ PrintToolError ∉ out.
Proof.
  rewrite main_unfold. unfold agent_after. rewrite play_unfold.
  destruct (game_loop_spec events 0 agent_started []
              ([ Print (PyStr.repeat_str "=" 60);
                 Print "  ROCK-PAPER-SCISSORS-PLUS GAME REFEREE";
                 Print "  Powered by Google ADK";
                 Print (PyStr.repeat_str "=" 60) ] ++ [Print welcome_message])
              agent_started_ok rounds_played_start)
    as (exit & agent' & log' & out' & Hloop & Hrun & _ & _ & Hr & Hout).
  rewrite Hloop, Hrun. cbn [fst snd].
  assert (∀ tail, PrintToolError ∉ tail →
            PrintToolError
            ∉ ([ Print (PyStr.repeat_str "=" 60);
                 Print "  ROCK-PAPER-SCISSORS-PLUS GAME REFEREE";
                 Print "  Powered by Google ADK";
                 Print (PyStr.repeat_str "=" 60) ] ++ [Print welcome_message])
              ++ tail) as Hhead.
  { intros tail Ht. rewrite not_elem_of_app. split; [|exact Ht]. no_tool_error. }
  destruct exit; eexists _, _; (split; [reflexivity|]); (split; [exact Hr|]).
  - rewrite <- app_assoc. apply Hhead. rewrite not_elem_of_app.
    split; [exact Hout | no_tool_error].
  - rewrite <- app_assoc. apply Hhead. rewrite not_elem_of_app.
    split; [exact Hout | no_tool_error].
  - apply Hhead. exact Hout.
  - apply Hhead. exact Hout.
Qed.

(** X20: how the loop ends.  [main] leaves the loop through its condition,
    the game being over, exactly when at least three moves were typed before
    any quit command or interrupt; it leaves it by [break] exactly when a
    quit command or an interrupt comes before the third typed move; in every
    other case it is left waiting for input.  The game in the final state is
    over exactly in the first case. *)
Theorem main_exit (events : list Event) :
  ((main events).1.1.1 = LoopConditionFalse ↔
     (3 ≤ length (typed_moves events))%nat)
  ∧ ((main events).1.1.1 = Break ↔ breaks_within 3 events = true)
  ∧ ((main events).1.1.1 = WaitingForInput ↔
       (length (typed_moves events) < 3)%nat ∧ breaks_within 3 events = false)
  ∧ (game_over (game_state (main events).1.1.2) = true ↔
       (main events).1.1.1 = LoopConditionFalse).
Proof.
  rewrite main_unfold.
  destruct (game_loop_spec events 0 agent_started []
              ([ Print (PyStr.repeat_str "=" 60);
                 Print "  ROCK-PAPER-SCISSORS-PLUS GAME REFEREE";
                 Print "  Powered by Google ADK";
                 Print (PyStr.repeat_str "=" 60) ] ++ [Print welcome_message])
              agent_started_ok rounds_played_start)
    as (exit & agent' & log' & out' & Hloop & Hrun & Hlcf & Hbrk & Hr & _).
  rewrite Hloop.
  destruct (process_turns_rounds (typed_moves events) 0 agent_started []
              agent_started_ok rounds_played_start)
    as (a & lg & Hrun' & _ & (_ & _ & _ & _ & Hg)).
  assert (a = agent') as -> by congruence.
  change (3 - 0)%nat with 3%nat in Hbrk. simpl plus in *.
  assert (game_over (game_state agent') = true ↔ exit = LoopConditionFalse) as Hover.
  { rewrite Hg, Hlcf. lia. }
  destruct exit; cbn [fst snd];
    (split; [exact Hlcf|]); (split; [exact Hbrk|]); (split; [|exact Hover]).
  - split; [discriminate|]. intros [Hlt _].
    apply proj1 in Hlcf. specialize (Hlcf eq_refl). lia.
  - split; [discriminate|]. intros [_ Hb].
    apply proj1 in Hbrk. rewrite (Hbrk eq_refl) in Hb. discriminate.
  - split; [intros _; split | reflexivity].
    + destruct (decide (3 ≤ length (typed_moves events))%nat) as [H|H]; [|lia].
      apply Hlcf in H. discriminate.
    + destruct (breaks_within 3 events); [|reflexivity].
      apply proj2 in Hbrk. specialize (Hbrk eq_refl). discriminate.
  - contradiction.
Qed.

(** * Further edge cases of the tools *)

(** X21: the validator only reads.  On any store and any reference
    [validate_move] leaves the store as it is, whatever the outcome of the
    call; and input that is no valid move once trimmed and lowercased is
    rejected, with the error naming the raw input, without the state being
    looked at. *)
Theorem store_validate_move_reads_only h l move :
  (Store.exec (Store.validate_move move l) h).2 = h
  ∧ (normalize move ∉ VALID_MOVES →
     Store.exec (Store.validate_move move l) h
     = (Store.Ok {| valid := false; normalized_move := None;
                    error := Some (invalid_move_error move) |}, h)).
Proof.
  split; [apply validate_move_store_unchanged|].
  intros Hout. unfold Store.validate_move. fold (normalize move).
  rewrite decide_True by exact Hout. reflexivity.
Qed.

(** X22: the reason names a true win.  For two different moves out of rock,
    scissors and paper the resolver returns; either the user wins, the
    user's move beats the bot's, and the reason is the user's move
    capitalized, " beats ", and the bot's move; or the bot wins with the
    moves the other way round. *)
Theorem resolve_round_reason (user_move bot_move : string) :
  user_move ∈ plain_moves → bot_move ∈ plain_moves → user_move ≠ bot_move →
  ∃ r, resolve_round user_move bot_move = Some r
       ∧ ((winner r = "user" ∧ beats user_move bot_move
           ∧ reason r = PyStr.capitalize user_move +:+ " beats " +:+ bot_move)
          ∨ (winner r = "bot" ∧ beats bot_move user_move
             ∧ reason r = PyStr.capitalize bot_move +:+ " beats " +:+ user_move)).
Proof.
  unfold plain_moves. rewrite !elem_of_cons, !elem_of_nil.
  intros [->|[->|[->|[]]]] [->|[->|[->|[]]]] Hne; try contradiction;
    (eexists; split; [vm_compute; reflexivity|]); cbn [winner reason]; unfold beats;
    first [left; split; [reflexivity|]; split; [tauto | reflexivity]
          |right; split; [reflexivity|]; split; [tauto | reflexivity]].
Qed.

Lemma rock_plain : "rock" ∈ plain_moves.
Proof. unfold plain_moves. repeat constructor. Defined.

Lemma paper_rock_differ : "paper" ≠ "rock".
Proof. discriminate. Defined.

(** * The record of a game *)

Lemma process_turn_step_facts self user_input rnd log :
  agent_ok self →
  game_over (game_state self) = false →
  ∃ resp user_move bot_move round_result s' calls,
    run (process_turn user_input rnd) self log
    = (Some resp, {| game_state := s'; game_started := true |}, log ++ calls)
    ∧ turn_facts (game_state self) user_move bot_move round_result
    ∧ update_game_state (game_state self) user_move bot_move round_result = Some s'
    ∧ agent_ok {| game_state := s'; game_started := true |}.
Proof.
  intros Hok Ho.
  destruct (process_turn_step self user_input rnd log Hok Ho)
    as (resp & v & bot_move & round_result & s' & Hrun & _ & Hmove & Hb & Hbin
        & Hr & Hcall & Hok').
  exists resp, (move_of v), bot_move, round_result, s', (tools_for v).
  split; [exact Hrun|]. split; [|split; assumption].
  split; [exact Hbin|].
  split; [intros ->; exact (bot_move_drawn_bomb self rnd Hb)|].
  destruct (move_of v) as [m|]; [|exact Hr].
  destruct (Hmove m eq_refl) as (_ & Hin & Hbomb). auto.
Qed.

Lemma play_invariant (P : GameState → Prop) :
  (∀ s user_move bot_move round_result s',
     P s → turn_facts s user_move bot_move round_result →
     update_game_state s user_move bot_move round_result = Some s' → P s') →
  ∀ turns self log,
    agent_ok self → P (game_state self) →
    ∃ self' log',
      run (process_turns turns) self log = (Some tt, self', log')
      ∧ agent_ok self' ∧ P (game_state self').
Proof.
  intros Hstep turns.
  induction turns as [|[user_input rnd] rest IH]; intros self log Hok HP.
  - exists self, log. auto.
  - cbn [process_turns]. rewrite run_bind.
    destruct (game_over (game_state self)) eqn:Ho.
    + rewrite (process_turn_over _ _ _ _ (proj1 Hok) Ho). apply IH; assumption.
    + destruct (process_turn_step_facts self user_input rnd log Hok Ho)
        as (resp & user_move & bot_move & round_result & s' & calls & Hrun
            & Hfacts & Hcall & Hok').
      rewrite Hrun. apply IH; [exact Hok'|].
      cbn [game_state]. eapply Hstep; eassumption.
Qed.

Lemma fair_record_step s user_move bot_move round_result s' :
  fair_record s → turn_facts s user_move bot_move round_result →
  update_game_state s user_move bot_move round_result = Some s' →
  fair_record s'.
Proof.
  intros (Hall & Hu & Hb) (Hbin & _ & Hum) Hcall. unfold fair_record.
  rewrite (update_history _ _ _ _ _ Hcall), !wins_snoc.
  unfold entry_of. cbn [rec_winner].
  split; [|].
  - apply Forall_app. split; [exact Hall|]. apply Forall_cons. split; [|constructor].
    unfold entry_by_rules.
    cbn [rec_bot_move rec_user_move rec_winner rec_reason].
    split; [exact Hbin|].
    destruct user_move as [m|]; simpl.
    + destruct Hum as (Hin & _ & Hr). right. split; [exact Hin|].
      rewrite Hr. destruct round_result; reflexivity.
    + left. rewrite Hum. auto.
  - destruct (decide (winner round_result = "user")) as [Wu|Wu].
    + destruct (update_score_user _ _ _ _ _ Hcall Wu) as (n & Hn & ->).
      rewrite lookup_insert_eq, lookup_insert_ne by done.
      rewrite decide_False by (rewrite Wu; discriminate).
      split; [congruence | rewrite Hb; f_equal; lia].
    + destruct (decide (winner round_result = "bot")) as [Wb|Wb].
      * destruct (update_score_bot _ _ _ _ _ Hcall Wb) as (n & Hn & ->).
        rewrite lookup_insert_eq, lookup_insert_ne by done.
        split; [rewrite Hu; f_equal; lia | congruence].
      * rewrite (update_score_other _ _ _ _ _ Hcall Wu Wb).
        split; [rewrite Hu | rewrite Hb]; f_equal; lia.
Qed.

(** X23: the record of a game is fair.  In any game played from
    [start_game], whatever the inputs and the draws, every history entry has
    a valid bot move and is either a forfeit ("INVALID", won by the bot, with
    the invalid-input reason) or carries a valid user move together with the
    winner and the reason [resolve_round] gives for the two moves; and each
    side's score is the number of entries it won. *)
Theorem play_record_is_fair (turns : list (string * nat)) :
  Forall entry_by_rules (history (game_state (agent_after turns)))
  ∧ score (game_state (agent_after turns)) !! "user"
    = Some (wins "user" (history (game_state (agent_after turns))))
  ∧ score (game_state (agent_after turns)) !! "bot"
    = Some (wins "bot" (history (game_state (agent_after turns)))).
Proof.
  unfold agent_after. rewrite play_unfold.
  destruct (play_invariant fair_record fair_record_step turns agent_started []
              agent_started_ok) as (a & lg & Hrun & _ & Hfair).
  { split; [constructor | split; reflexivity]. }
  rewrite Hrun. exact Hfair.
Qed.

End properties.

(** * Evaluations and witnesses

    The program and the theorems at concrete inputs.  The inputs are ASCII
    up to whitespace, so the case mapping of the Unicode database is not
    consulted. *)

Section evaluations.
#[local] Existing Instance PyStr.ascii_only.

Example validate_padded :
  validate_move "  Scissors  " initialize_game_state
  = Some {| valid := true; normalized_move := Some "scissors"; error := None |}.
Proof. vm_compute. reflexivity. Qed.

Example strip_examples :
  PyStr.strip "  Scissors  " = "Scissors"
  ∧ PyStr.strip padded_rock = "RoCk"
  ∧ PyStr.strip ideographic_space = ""
  ∧ PyStr.strip quit_no_break_space = "quit"
  ∧ PyStr.strip " rock  paper " = "rock  paper"
  ∧ PyStr.strip zero_width_rock = zero_width_rock.
Proof. repeat split; vm_compute; reflexivity. Qed.

Lemma validate_padded_rock :
  validate_move padded_rock initialize_game_state
  = Some {| valid := true; normalized_move := Some "rock"; error := None |}.
Proof. vm_compute. reflexivity. Defined.

(** U+00A0 before "BOMB" is trimmed: the move is a bomb, and the user's flag
    is looked up. *)
Example validate_bomb_without_user_flag :
  validate_move (string_of_list_ascii (PyStr.utf8 [0xC2; 0xA0]%N) +:+ "BOMB")
    (set_bomb_used ∅ initialize_game_state)
  = None.
Proof. vm_compute. reflexivity. Qed.

Example resolve_rock_scissors :
  resolve_round "rock" "scissors"
  = Some {| winner := "user"; reason := "Rock beats scissors" |}.
Proof. vm_compute. reflexivity. Qed.

Example resolve_key_error : resolve_round "laser" "rock" = None.
Proof. vm_compute. reflexivity. Qed.

Example of_int_examples :
  PyStr.of_int 0 = "0" ∧ PyStr.of_int 12 = "12" ∧ PyStr.of_int (-3) = "-3".
Proof. vm_compute. auto. Qed.

Example first_turn_rock :
  (play [("rock", 2%nat)]).2 = [ValidateMove; ResolveRound; UpdateGameState]
  ∧ score (game_state (agent_after [("rock", 2%nat)])) !! "user" = Some 1
  ∧ score (game_state (agent_after [("rock", 2%nat)])) !! "bot" = Some 0
  ∧ round (game_state (agent_after [("rock", 2%nat)])) = 2
  ∧ game_over (game_state (agent_after [("rock", 2%nat)])) = false.
Proof. repeat split; vm_compute; reflexivity. Qed.

(** The assertions of [test_game.py], on the model. *)

Example test_validate_move :
  (valid <$> validate_move "rock" initialize_game_state) = Some true
  ∧ (valid <$> validate_move "PAPER" initialize_game_state) = Some true
  ∧ (valid <$> validate_move "  Scissors  " initialize_game_state) = Some true
  ∧ (valid <$> validate_move "bomb" initialize_game_state) = Some true
  ∧ (valid <$> validate_move "laser" initialize_game_state) = Some false
  ∧ (valid <$> validate_move "bomb"
                 (set_bomb_used (<["user" := true]> (bomb_used initialize_game_state))
                    initialize_game_state)) = Some false.
Proof. repeat split; vm_compute; reflexivity. Qed.

Example test_resolve_round :
  (winner <$> resolve_round "bomb" "rock") = Some "user"
  ∧ (winner <$> resolve_round "paper" "bomb") = Some "bot"
  ∧ (winner <$> resolve_round "bomb" "bomb") = Some "draw"
  ∧ (winner <$> resolve_round "rock" "scissors") = Some "user"
  ∧ (winner <$> resolve_round "scissors" "rock") = Some "bot"
  ∧ (winner <$> resolve_round "paper" "paper") = Some "draw".
Proof. repeat split; vm_compute; reflexivity. Qed.

Example test_update_game_state :
  let t1 : Turn := (Some "rock", "scissors",
                    {| winner := "user"; reason := "Rock beats scissors" |}) in
  let t2 : Turn := (Some "paper", "bomb",
                    {| winner := "bot"; reason := "Bot's bomb beats everything" |}) in
  let t3 : Turn := (Some "rock", "rock",
                    {| winner := "draw"; reason := "Both played rock" |}) in
  let t4 : Turn := (None, "rock",
                    {| winner := "bot"; reason := "User played invalid move" |}) in
  let after (turns : list Turn) := update_all initialize_game_state turns in
  (after [t1] ≫= λ s, score s !! "user") = Some 1
  ∧ (after [t1] ≫= λ s, score s !! "bot") = Some 0
  ∧ (round <$> after [t1]) = Some 2
  ∧ (game_over <$> after [t1]) = Some false
  ∧ (length ∘ history <$> after [t1]) = Some 1%nat
  ∧ (after [t1; t2] ≫= λ s, score s !! "user") = Some 1
  ∧ (after [t1; t2] ≫= λ s, score s !! "bot") = Some 1
  ∧ (after [t1; t2] ≫= λ s, bomb_used s !! "bot") = Some true
  ∧ (round <$> after [t1; t2]) = Some 3
  ∧ (game_over <$> after [t1; t2]) = Some false
  ∧ (after [t1; t2; t3] ≫= λ s, score s !! "user") = Some 1
  ∧ (after [t1; t2; t3] ≫= λ s, score s !! "bot") = Some 1
  ∧ (round <$> after [t1; t2; t3]) = Some 4
  ∧ (game_over <$> after [t1; t2; t3]) = Some true
  ∧ (length ∘ history <$> after [t1; t2; t3]) = Some 3%nat
  ∧ (after [t4] ≫= λ s, rec_user_move <$> history s !! 0%nat) = Some "INVALID"
  ∧ (after [t4] ≫= λ s, score s !! "bot") = Some 1.
Proof. repeat split; vm_compute; reflexivity. Qed.

Example test_agent_flow :
  let a1 := agent_after [("rock", 0%nat)] in
  let a2 := agent_after [("rock", 0%nat); ("laser", 1%nat)] in
  let a3 := agent_after [("rock", 0%nat); ("laser", 1%nat); ("scissors", 2%nat)] in
  game_started a1 = true
  ∧ round (game_state a1) = 2
  ∧ length (history (game_state a1)) = 1%nat
  ∧ round (game_state a2) = 3
  ∧ (rec_user_move <$> history (game_state a2) !! 1%nat) = Some "INVALID"
  ∧ game_over (game_state a3) = true
  ∧ round (game_state a3) = 4
  ∧ run (process_turn "rock" 3) a3 []
    = (Some "🚫 The game is already over. Please start a new game.", a3, []).
Proof. repeat split; vm_compute; reflexivity. Qed.

Example test_bomb_enforcement :
  let a1 := agent_after [("bomb", 0%nat)] in
  let a2 := agent_after [("bomb", 0%nat); ("bomb", 0%nat)] in
  bomb_used (game_state a1) !! "user" = Some true
  ∧ (rec_user_move <$> history (game_state a2) !! 1%nat) = Some "INVALID"
  ∧ bomb_used (game_state a2) !! "user" = Some true.
Proof. repeat split; vm_compute; reflexivity. Qed.

Lemma resolve_round_precedence_witness :
  "paper" ∈ VALID_MOVES ∧ "rock" ∈ VALID_MOVES
  ∧ ∃ r, resolve_round "paper" "rock" = Some r
         ∧ spec_winner "paper" "rock" = Some (winner r).
Proof.
  assert (Hp : "paper" ∈ VALID_MOVES) by (unfold VALID_MOVES; repeat constructor).
  assert (Hr : "rock" ∈ VALID_MOVES) by (unfold VALID_MOVES; repeat constructor).
  split; [exact Hp | split; [exact Hr |]].
  exact (resolve_round_precedence "paper" "rock" Hp Hr).
Defined.

Lemma update_bomb_flags_witness :
  has_players (score initialize_game_state)
  ∧ ∃ s', update_game_state initialize_game_state (Some "bomb") "bomb"
            {| winner := "draw"; reason := "Both players used bomb - it's a draw!" |}
          = Some s'
    ∧ (bomb_used initialize_game_state !! "user" = Some true →
       bomb_used s' !! "user" = Some true)
    ∧ (bomb_used initialize_game_state !! "bot" = Some true →
       bomb_used s' !! "bot" = Some true)
    ∧ (Some "bomb" = Some "bomb" → bomb_used s' !! "user" = Some true)
    ∧ ("bomb" = "bomb" → bomb_used s' !! "bot" = Some true)
    ∧ (∀ turns s'' k, update_all initialize_game_state turns = Some s'' →
         bomb_used initialize_game_state !! k = Some true →
         bomb_used s'' !! k = Some true).
Proof.
  split; [exact initial_has_players|].
  exact (update_bomb_flags initialize_game_state (Some "bomb") "bomb" _
           initial_has_players).
Defined.

Lemma update_score_by_winner_witness :
  has_players (score initialize_game_state)
  ∧ ∃ s' u b u' b',
      update_game_state initialize_game_state (Some "rock") "scissors"
        {| winner := "user"; reason := "Rock beats scissors" |} = Some s'
      ∧ score initialize_game_state !! "user" = Some u
      ∧ score initialize_game_state !! "bot" = Some b
      ∧ score s' !! "user" = Some u' ∧ score s' !! "bot" = Some b'
      ∧ ("user" = "user" → u' = u + 1 ∧ b' = b)
      ∧ ("user" = "bot" → u' = u ∧ b' = b + 1)
      ∧ ("user" = "draw" → u' = u ∧ b' = b)
      ∧ (u ≤ u')%Z ∧ (b ≤ b')%Z.
Proof.
  split; [exact initial_has_players|].
  exact (update_score_by_winner initialize_game_state (Some "rock") "scissors"
           {| winner := "user"; reason := "Rock beats scissors" |}
           initial_has_players).
Defined.

Lemma update_game_over_flag_witness :
  has_players (score state_after_draw)
  ∧ over_past_last_round state_after_draw
  ∧ ∃ s', update_game_state state_after_draw (Some "rock") "rock"
            {| winner := "draw"; reason := "Both played rock" |} = Some s'
    ∧ round s' = round state_after_draw + 1
    ∧ max_rounds s' = max_rounds state_after_draw
    ∧ (game_over s' = true ↔ round s' > max_rounds s')
    ∧ (game_over state_after_draw = true → game_over s' = true)
    ∧ over_past_last_round s'.
Proof.
  assert (H : over_past_last_round state_after_draw)
    by (intros H; discriminate H).
  split; [exact initial_has_players|]. split; [exact H|].
  exact (update_game_over_flag state_after_draw (Some "rock") "rock"
           {| winner := "draw"; reason := "Both played rock" |}
           initial_has_players H).
Defined.

Lemma process_turn_rejects_witness :
  (game_started agent_after_three_rounds = false
   ∨ game_over (game_state agent_after_three_rounds) = true)
  ∧ ∃ msg,
      run (process_turn "rock" 0) agent_after_three_rounds []
      = (Some msg, agent_after_three_rounds, [])
      ∧ (game_started agent_after_three_rounds = false →
         msg = "Game not started. Please start a new game first.")
      ∧ (game_started agent_after_three_rounds = true →
         msg = "🚫 The game is already over. Please start a new game.").
Proof.
  assert (H : game_started agent_after_three_rounds = false
              ∨ game_over (game_state agent_after_three_rounds) = true)
    by (right; vm_compute; reflexivity).
  split; [exact H|].
  exact (process_turn_rejects agent_after_three_rounds "rock" 0%nat [] H).
Defined.

Lemma process_turn_invalid_input_witness :
  game_started agent_started = true
  ∧ game_over (game_state agent_started) = false
  ∧ has_players (score (game_state agent_started))
  ∧ is_Some (bomb_used (game_state agent_started) !! "bot")
  ∧ ∃ resp self' bot_move u b,
      run (process_turn "laser" 0) agent_started []
      = (Some resp, self', [] ++ [ValidateMove; UpdateGameState])
      ∧ (ResolveRound ∉ [ValidateMove; UpdateGameState])
      ∧ bot_move_drawn agent_started 0 = Some bot_move
      ∧ game_started self' = true
      ∧ score (game_state agent_started) !! "user" = Some u
      ∧ score (game_state agent_started) !! "bot" = Some b
      ∧ score (game_state self') !! "bot" = Some (b + 1)
      ∧ score (game_state self') !! "user" = Some u
      ∧ round (game_state self') = round (game_state agent_started) + 1
      ∧ history (game_state self')
        = history (game_state agent_started) ++
            [ {| rec_round := round (game_state agent_started);
                 rec_user_move := "INVALID";
                 rec_bot_move := bot_move;
                 rec_winner := "bot";
                 rec_reason := "Invalid input - bot wins by default" |} ].
Proof.
  split; [reflexivity|]. split; [reflexivity|].
  split; [exact initial_has_players|].
  split; [exact agent_started_bot_flag|].
  exact (process_turn_invalid_input agent_started "laser" 0%nat [] _
           eq_refl eq_refl initial_has_players agent_started_bot_flag
           validate_laser eq_refl).
Defined.

Lemma process_turn_invalid_input_bot_bomb_witness :
  game_started agent_started = true
  ∧ game_over (game_state agent_started) = false
  ∧ has_players (score (game_state agent_started))
  ∧ bot_move_drawn agent_started 3 = Some "bomb"
  ∧ ∃ resp self',
      run (process_turn "laser" 3) agent_started []
      = (Some resp, self', [] ++ [ValidateMove; UpdateGameState])
      ∧ bomb_used (game_state agent_started) !! "bot" = Some false
      ∧ bomb_used (game_state self') !! "bot" = Some true
      ∧ history (game_state self')
        = history (game_state agent_started) ++
            [ {| rec_round := round (game_state agent_started);
                 rec_user_move := "INVALID";
                 rec_bot_move := "bomb";
                 rec_winner := "bot";
                 rec_reason := "Invalid input - bot wins by default" |} ].
Proof.
  split; [reflexivity|]. split; [reflexivity|].
  split; [exact initial_has_players|].
  split; [vm_compute; reflexivity|].
  refine (process_turn_invalid_input_bot_bomb agent_started "laser" 3%nat [] _
            eq_refl eq_refl initial_has_players validate_laser eq_refl _).
  vm_compute. reflexivity.
Defined.

Lemma validate_move_spec_witness :
  Store.load store_initial 3 = Some initialize_game_state
  ∧ is_Some (bomb_used initialize_game_state !! "user")
  ∧ ∃ v pre post,
      Store.exec (Store.validate_move padded_rock 3) store_initial
      = (Store.Ok v, store_initial)
      ∧ validate_move padded_rock initialize_game_state = Some v
      ∧ list_ascii_of_string padded_rock
        = pre ++ list_ascii_of_string "RoCk" ++ post
      ∧ whitespace_run pre ∧ whitespace_run post
      ∧ (∀ w, w ∈ PyStr.whitespace →
           ¬ w `prefix_of` list_ascii_of_string "RoCk"
           ∧ ¬ w `suffix_of` list_ascii_of_string "RoCk")
      ∧ "rock" = PyStr.lower "RoCk"
      ∧ (PyStr.is_ascii "RoCk" = true →
         Forall2 lowered (list_ascii_of_string "RoCk")
           (list_ascii_of_string "rock"))
      ∧ (valid v = true ↔
         "rock" ∈ VALID_MOVES
         ∧ ¬ ("rock" = "bomb"
              ∧ bomb_used initialize_game_state !! "user" = Some true))
      ∧ (valid v = true →
         normalized_move v = Some "rock" ∧ error v = None)
      ∧ (valid v = false → normalized_move v = None ∧ is_Some (error v))
      ∧ ("rock" ∉ VALID_MOVES →
         error v = Some (invalid_move_error padded_rock))
      ∧ ("rock" = "bomb" →
         bomb_used initialize_game_state !! "user" = Some true →
         error v = Some bomb_used_error
         ∧ bomb_used_error ≠ invalid_move_error padded_rock).
Proof.
  split; [exact load_store_initial|]. split; [exact initial_user_flag|].
  exact (validate_move_spec store_initial 3%nat initialize_game_state
           padded_rock load_store_initial initial_user_flag).
Defined.

Lemma update_game_state_leaves_input_witness :
  Store.load store_initial 3 = Some initialize_game_state
  ∧ has_players (score initialize_game_state)
  ∧ ∃ l' h' s' st',
      Store.exec
        (Store.update_game_state 3 (Some "bomb") "rock"
           {| winner := "user"; reason := "Bomb beats everything!" |})
        store_initial
      = (Store.Ok l', h')
      ∧ update_game_state initialize_game_state (Some "bomb") "rock"
          {| winner := "user"; reason := "Bomb beats everything!" |} = Some s'
      ∧ Store.load h' l' = Some s'
      ∧ store_initial !! l' = None
      ∧ h' !! l' = Some (Store.OGameState st')
      ∧ store_initial !! Store.o_score st' = None
      ∧ store_initial !! Store.o_bomb_used st' = None
      ∧ store_initial !! Store.o_history st' = None
      ∧ (∀ i o, store_initial !! i = Some o → h' !! i = Some o)
      ∧ Store.load h' 3 = Some initialize_game_state.
Proof.
  split; [exact load_store_initial|]. split; [exact initial_has_players|].
  exact (update_game_state_leaves_input store_initial 3%nat
           initialize_game_state (Some "bomb") "rock"
           {| winner := "user"; reason := "Bomb beats everything!" |}
           load_store_initial initial_has_players).
Defined.

Example store_update_rock_scissors :
  let r := Store.exec
             (Store.update_game_state 3 (Some "rock") "scissors"
                {| winner := "user"; reason := "Rock beats scissors" |})
             store_initial in
  r.1 = Store.Ok 7%nat
  ∧ Store.load r.2 3 = Some initialize_game_state
  ∧ (round <$> load_result r) = Some 2
  ∧ (load_result r ≫= λ s, score s !! "user") = Some 1.
Proof. repeat split; vm_compute; reflexivity. Qed.

Lemma resolve_round_mirror_witness :
  "rock" ∈ VALID_MOVES ∧ "bomb" ∈ VALID_MOVES
  ∧ ∃ r r', resolve_round "rock" "bomb" = Some r
            ∧ resolve_round "bomb" "rock" = Some r'
            ∧ winner r' = mirror (winner r).
Proof.
  split; [exact rock_valid|]. split; [exact bomb_valid|].
  exact (resolve_round_mirror "rock" "bomb" rock_valid bomb_valid).
Defined.

Lemma resolve_round_unknown_move_witness :
  "paper" ∈ plain_moves ∧ ("laser" ∉ VALID_MOVES)
  ∧ resolve_round "paper" "laser"
    = Some {| winner := "bot";
              reason := PyStr.capitalize "laser" +:+ " beats " +:+ "paper" |}
  ∧ resolve_round "laser" "paper" = None.
Proof.
  split; [exact paper_plain|]. split; [exact laser_not_valid|].
  exact (resolve_round_unknown_move "paper" "laser" paper_plain laser_not_valid).
Defined.

Lemma validate_move_normalized_again_witness :
  validate_move " BOMB " initialize_game_state
  = Some {| valid := true; normalized_move := Some "bomb"; error := None |}
  ∧ "bomb" ∈ VALID_MOVES
  ∧ valid {| valid := true; normalized_move := Some "bomb"; error := None |} = true
  ∧ validate_move "bomb" initialize_game_state
    = Some {| valid := true; normalized_move := Some "bomb"; error := None |}.
Proof.
  split; [exact validate_padded_bomb|].
  exact (validate_move_normalized_again " BOMB " initialize_game_state _ "bomb"
           validate_padded_bomb eq_refl).
Defined.

Lemma generate_bot_move_legal_witness :
  is_Some (bomb_used (game_state agent_started) !! "bot")
  ∧ ∃ m, run (generate_bot_move 5) agent_started [] = (Some m, agent_started, [])
         ∧ m ∈ VALID_MOVES
         ∧ (m = "bomb" →
            bomb_used (game_state agent_started) !! "bot" = Some false).
Proof.
  split; [exact agent_started_bot_flag|].
  exact (generate_bot_move_legal agent_started 5%nat [] agent_started_bot_flag).
Defined.

Lemma generate_bot_move_complete_witness :
  "bomb" ∈ VALID_MOVES
  ∧ (is_Some (bomb_used (game_state agent_started) !! "bot")
     ∧ ("bomb" = "bomb" →
        bomb_used (game_state agent_started) !! "bot" = Some false) ↔
     ∃ rnd, bot_move_drawn agent_started rnd = Some "bomb").
Proof.
  split; [exact bomb_valid|].
  exact (generate_bot_move_complete agent_started "bomb" bomb_valid).
Defined.

Lemma process_turn_valid_input_witness :
  agent_ok agent_started
  ∧ game_over (game_state agent_started) = false
  ∧ validate_move padded_rock (game_state agent_started)
    = Some {| valid := true; normalized_move := Some "rock"; error := None |}
  ∧ valid {| valid := true; normalized_move := Some "rock"; error := None |}
    = true
  ∧ ∃ resp self' bot_move round_result,
      run (process_turn padded_rock 1) agent_started []
      = (Some resp, self', [] ++ [ValidateMove; ResolveRound; UpdateGameState])
      ∧ {| valid := true; normalized_move := Some "rock"; error := None |}
        = {| valid := true; normalized_move := Some "rock"; error := None |}
      ∧ bot_move_drawn agent_started 1 = Some bot_move
      ∧ resolve_round "rock" bot_move = Some round_result
      ∧ update_game_state (game_state agent_started) (Some "rock")
          bot_move round_result = Some (game_state self')
      ∧ game_started self' = true.
Proof.
  split; [exact agent_started_ok|]. split; [reflexivity|].
  split; [exact validate_padded_rock|]. split; [reflexivity|].
  exact (process_turn_valid_input agent_started padded_rock 1%nat [] _
           agent_started_ok eq_refl validate_padded_rock eq_refl).
Defined.

Lemma process_turn_consumes_round_witness :
  agent_ok agent_started
  ∧ game_over (game_state agent_started) = false
  ∧ ∃ resp self' calls,
      run (process_turn "" 0) agent_started [] = (Some resp, self', [] ++ calls)
      ∧ agent_ok self'
      ∧ round (game_state self') = round (game_state agent_started) + 1
      ∧ max_rounds (game_state self') = max_rounds (game_state agent_started)
      ∧ length (history (game_state self'))
        = S (length (history (game_state agent_started)))
      ∧ (game_over (game_state self') = true ↔
         round (game_state agent_started) + 1
         > max_rounds (game_state agent_started)).
Proof.
  split; [exact agent_started_ok|]. split; [reflexivity|].
  exact (process_turn_consumes_round agent_started "" 0%nat []
           agent_started_ok eq_refl).
Defined.

Lemma store_update_all_keeps_past_witness :
  Store.load store_initial 3 = Some initialize_game_state
  ∧ update_all initialize_game_state
      [(Some "rock", "rock", {| winner := "draw"; reason := "Both played rock" |})]
    = Some state_after_draw
  ∧ ∃ l' h',
      Store.exec
        (store_update_all 3
           [(Some "rock", "rock",
             {| winner := "draw"; reason := "Both played rock" |})])
        store_initial
      = (Store.Ok l', h')
      ∧ Store.load h' l' = Some state_after_draw
      ∧ store_initial `prefix_of` h'
      ∧ Store.load h' 3 = Some initialize_game_state.
Proof.
  split; [exact load_store_initial|]. split; [exact update_all_draw|].
  exact (store_update_all_keeps_past store_initial 3%nat initialize_game_state
           state_after_draw _ load_store_initial update_all_draw).
Defined.

Lemma load_store_without_bot_score :
  Store.load store_without_bot_score 3 = Some state_without_bot_score.
Proof. reflexivity. Defined.

Lemma store_update_exception_safe_witness :
  Store.load store_without_bot_score 3 = Some state_without_bot_score
  ∧ store_without_bot_score `prefix_of`
      (Store.exec
         (Store.update_game_state 3 None "rock" invalid_input_result)
         store_without_bot_score).2
  ∧ Store.load
      (Store.exec
         (Store.update_game_state 3 None "rock" invalid_input_result)
         store_without_bot_score).2
      3 = Some state_without_bot_score
  ∧ ((Store.exec
        (Store.update_game_state 3 None "rock" invalid_input_result)
        store_without_bot_score).1
     = Store.Raise Store.KeyError ↔
     (winner invalid_input_result = "user"
      ∧ score state_without_bot_score !! "user" = None)
     ∨ (winner invalid_input_result = "bot"
        ∧ score state_without_bot_score !! "bot" = None))
  ∧ ((∃ l', (Store.exec
               (Store.update_game_state 3 None "rock" invalid_input_result)
               store_without_bot_score).1
            = Store.Ok l') ↔
     ¬ ((winner invalid_input_result = "user"
         ∧ score state_without_bot_score !! "user" = None)
        ∨ (winner invalid_input_result = "bot"
           ∧ score state_without_bot_score !! "bot" = None))).
Proof.
  split; [exact load_store_without_bot_score|].
  exact (store_update_exception_safe store_without_bot_score 3%nat
           state_without_bot_score None "rock" invalid_input_result
           load_store_without_bot_score).
Defined.

Example store_update_raises_key_error :
  (Store.exec (Store.update_game_state 3 None "rock" invalid_input_result)
     store_without_bot_score).1
  = Store.Raise Store.KeyError.
Proof. vm_compute. reflexivity. Qed.

Lemma resolve_round_reason_witness :
  "paper" ∈ plain_moves ∧ "rock" ∈ plain_moves ∧ "paper" ≠ "rock"
  ∧ ∃ r, resolve_round "paper" "rock" = Some r
         ∧ ((winner r = "user" ∧ beats "paper" "rock"
             ∧ reason r = PyStr.capitalize "paper" +:+ " beats " +:+ "rock")
            ∨ (winner r = "bot" ∧ beats "rock" "paper"
               ∧ reason r = PyStr.capitalize "rock" +:+ " beats " +:+ "paper")).
Proof.
  split; [exact paper_plain|]. split; [exact rock_plain|].
  split; [exact paper_rock_differ|].
  exact (resolve_round_reason "paper" "rock" paper_plain rock_plain paper_rock_differ).
Defined.

Example main_session :
  let r := main [Line "  Rock " 2; Line "   " 0; EOFError; Line "laser" 1;
                 Line "QUIT" 0; Line "paper" 0] in
  r.1.1.1 = Break
  ∧ typed_moves [Line "  Rock " 2; Line "   " 0; EOFError; Line "laser" 1;
                 Line "QUIT" 0; Line "paper" 0]
    = [("Rock", 2%nat); ("laser", 1%nat)]
  ∧ round (game_state r.1.1.2) = 3
  ∧ score (game_state r.1.1.2) !! "user" = Some 1
  ∧ score (game_state r.1.1.2) !! "bot" = Some 1
  ∧ r.1.2 = [ValidateMove; ResolveRound; UpdateGameState;
             ValidateMove; UpdateGameState]
  ∧ length r.2 = 17%nat.
Proof. repeat split; vm_compute; reflexivity. Qed.

Example main_session_unicode_spaces :
  let events := [Line ideographic_space 0; Line padded_rock 2;
                 Line ideographic_space 0; Line quit_no_break_space 0;
                 Line "paper" 0] in
  (main events).1.1.1 = Break
  ∧ typed_moves events = [("RoCk", 2%nat)]
  ∧ breaks_within 3 events = true
  ∧ round (game_state (main events).1.1.2) = 2
  ∧ (main events).1.2 = [ValidateMove; ResolveRound; UpdateGameState].
Proof. repeat split; vm_compute; reflexivity. Qed.

End evaluations.
